(** * sourcedump: ignore-aware traversal and filtering

    A shallow embedding of [src/source_dump/sourcedump.ts]: the ignore
    file parser [readGitignore], the membership test [shouldIgnore] and
    the two recursive walks [listFiles] and [generateTree].

    Conventions of the embedding.
    - A JavaScript string is a [string]; [startsWith], [substring],
      [repeat] and [split] are modelled on their ECMAScript definitions.
    - [RegExp] is a builtin of the host and not code of the repository:
      the compiler and the matcher are parameters of the development
      ([Section Walker]).  [RegExp_test] is the search loop of
      [RegExp.prototype.test] for a pattern without flags.
    - The file system is a finite tree.  [readdir] and [stat] are
      promises: they fulfil with a value or reject with an error, and
      every call is recorded in a trace.
    - [dir] is always [baseDir] extended by entry names, so a path is
      kept as the list of the names below [baseDir]; [path_join] adds a
      name and [path_relative] joins the names with the separator. *)

From Stdlib Require Import String Ascii List Bool Arith Lia Permutation.
Import ListNotations.
Local Open Scope string_scope.
Local Open Scope list_scope.

(** ** Strings *)

Module JS.

(** [s.startsWith(searchString)] *)
Definition startsWith (s searchString : string) : bool :=
  String.prefix searchString s.

(** [s.substring(start)] *)
Definition substring (start : nat) (s : string) : string :=
  String.substring start (String.length s - start) s.

(** [ToBoolean] on a string: only the empty string is falsy. *)
Definition truthy (s : string) : bool :=
  match s with
  | EmptyString => false
  | String _ _ => true
  end.

(** [s.repeat(count)] *)
Fixpoint repeat (s : string) (count : nat) : string :=
  match count with
  | O => ""
  | S n => (s ++ repeat s n)%string
  end.

Definition LF : ascii := "010"%char.
Definition CR : ascii := "013"%char.

(** [s.split(/\r?\n/)]: the scan looks for the separator at each
    position from left to right, so a carriage return is part of the
    separator exactly when a line feed follows it. *)
Fixpoint split_lines (s : string) : list string :=
  match s with
  | EmptyString => [""]
  | String c rest =>
      if Ascii.eqb c LF then "" :: split_lines rest
      else
        match rest with
        | String c' rest' =>
            if Ascii.eqb c CR && Ascii.eqb c' LF then "" :: split_lines rest'
            else
              match split_lines rest with
              | line :: lines => String c line :: lines
              | [] => [String c ""]
              end
        | EmptyString => [String c ""]
        end
  end.

End JS.

(** ** A regular-expression engine for the examples

    A fragment of ECMAScript patterns: literal characters, [.], a
    postfix [*], and the assertions [^] and [$].  [compile] rejects a
    [*] that has nothing to repeat, as ECMAScript does; the other
    pattern characters are outside the fragment, and the examples do
    not use them. *)

Module MiniRegExp.

Inductive atom : Type :=
| Chr (c : ascii)
| AnyChr.

Inductive item : Type :=
| One (a : atom)
| Star (a : atom)
| Bol
| Eol.

Definition regex : Type := list item.

Definition outside_fragment (c : ascii) : bool :=
  existsb (Ascii.eqb c)
    ["("; ")"; "["; "]"; "{"; "}"; "+"; "?"; "|"; "\"]%char.

Fixpoint parse (prev : option atom) (s : string) : option regex :=
  let flush := match prev with Some a => [One a] | None => [] end in
  match s with
  | EmptyString => Some flush
  | String c rest =>
      if Ascii.eqb c "*" then
        match prev with
        | Some a => option_map (cons (Star a)) (parse None rest)
        | None => None
        end
      else if Ascii.eqb c "^" then
        option_map (fun r => flush ++ Bol :: r) (parse None rest)
      else if Ascii.eqb c "$" then
        option_map (fun r => flush ++ Eol :: r) (parse None rest)
      else if outside_fragment c then None
      else
        option_map (app flush)
          (parse (Some (if Ascii.eqb c "." then AnyChr else Chr c)) rest)
  end.

Definition compile (pattern : string) : option regex := parse None pattern.

Definition atom_ok (a : atom) (c : ascii) : bool :=
  match a with
  | Chr c' => Ascii.eqb c c'
  | AnyChr => negb (Ascii.eqb c JS.LF || Ascii.eqb c JS.CR)
  end.

(** Backtracking match of [re] against the input that starts at the
    current position; [at0] tells whether that position is index 0. *)
Fixpoint match_here (re : regex) (at0 : bool) (s : string) : bool :=
  match re with
  | [] => true
  | One a :: re' =>
      match s with
      | String c s' => atom_ok a c && match_here re' false s'
      | EmptyString => false
      end
  | Star a :: re' =>
      (fix star (at0 : bool) (s : string) {struct s} : bool :=
         match_here re' at0 s
         || match s with
            | String c s' => atom_ok a c && star false s'
            | EmptyString => false
            end) at0 s
  | Bol :: re' => at0 && match_here re' at0 s
  | Eol :: re' =>
      match s with
      | EmptyString => match_here re' at0 s
      | String _ _ => false
      end
  end.

Fixpoint drop (i : nat) (s : string) : string :=
  match i, s with
  | O, _ => s
  | S i', String _ s' => drop i' s'
  | S _, EmptyString => ""
  end.

Definition matcher (r : regex) (s : string) (i : nat) : bool :=
  match_here r (Nat.eqb i 0) (drop i s).

End MiniRegExp.

(** ** The file system and its promises *)

Definition error : Type := string.

Definition ENOTDIR : error := "ENOTDIR".

(** The names below [baseDir], outermost first. *)
Definition path : Type := list string.

(** [path.join(dir, file)] for an entry name returned by [readdir]. *)
Definition path_join (dir : path) (file : string) : path := dir ++ [file].

Definition sep : string := "/".

(** [path.relative(baseDir, filePath)] for a path below [baseDir]. *)
Definition path_relative (filePath : path) : string :=
  String.concat sep filePath.

(** What lies at a path.  [readdir] lists the entries of a [Dir] in the
    order of the list and rejects on anything else; [stat] rejects on
    [Missing] and reports a directory on [Dir] and [Denied].  An entry
    carries its name and what [stat] and [readdir] find under that
    name, so a walk goes down the tree instead of looking paths up. *)
#[warnings="-register-all"]
Inductive node : Type :=
| File
| Dir (entries : list (string * node))
| Denied (e : error)
| Missing (e : error).

(** Induction on a tree, with the hypothesis on every entry of a
    directory. *)
Section NodeInduction.

Variable P : node -> Prop.
Hypothesis HFile : P File.
Hypothesis HDir :
  forall entries, Forall (fun e => P (snd e)) entries -> P (Dir entries).
Hypothesis HDenied : forall e, P (Denied e).
Hypothesis HMissing : forall e, P (Missing e).

Fixpoint node_induction (d : node) : P d :=
  match d with
  | File => HFile
  | Dir entries =>
      HDir entries
        ((fix each (l : list (string * node)) : Forall (fun e => P (snd e)) l :=
            match l with
            | [] => Forall_nil _
            | e :: l' => Forall_cons e (node_induction (snd e)) (each l')
            end) entries)
  | Denied e => HDenied e
  | Missing e => HMissing e
  end.

End NodeInduction.

Inductive syscall : Type :=
| Readdir (p : path)
| Stat (p : path).

(** A call and, when it rejected, the error. *)
Definition event : Type := (syscall * option error)%type.

Inductive result (A : Type) : Type :=
| Ok (a : A)
| Err (e : error).
Arguments Ok {A} a.
Arguments Err {A} e.

(** An awaited computation: the calls made so far and how it settled. *)
Definition FS (A : Type) : Type := (list event * result A)%type.

Definition ret {A : Type} (a : A) : FS A := ([], Ok a).

Definition bind {A B : Type} (m : FS A) (k : A -> FS B) : FS B :=
  match m with
  | (t, Ok a) => let (t', r) := k a in (t ++ t', r)
  | (t, Err e) => (t, Err e)
  end.

Notation "x <- m ;; k" := (bind m (fun x => k))
  (at level 61, m at next level, right associativity).

Definition fulfil {A : Type} (c : syscall) (a : A) : FS A := ([(c, None)], Ok a).
Definition reject {A : Type} (c : syscall) (e : error) : FS A := ([(c, Some e)], Err e).

(** [await stat(filePath)] followed by [isDirectory()]. *)
Definition stat (filePath : path) (n : node) : FS bool :=
  match n with
  | File => fulfil (Stat filePath) false
  | Dir _ | Denied _ => fulfil (Stat filePath) true
  | Missing e => reject (Stat filePath) e
  end.

(** [await readdir(dir)], handing the listing to the rest of the body. *)
Definition readdir {A : Type} (dir : path) (n : node)
                   (k : list (string * node) -> FS A) : FS A :=
  match n with
  | Dir entries => list <- fulfil (Readdir dir) entries ;; k list
  | File => reject (Readdir dir) ENOTDIR
  | Denied e | Missing e => reject (Readdir dir) e
  end.

(** ** The command line

    [main] reads [process.argv.slice(2)] with a [for] loop whose index
    also moves inside the cases.  The index is kept as the arguments
    from [args[i]] on: a case that reads [args[++i]] takes the head of
    what follows, and the next turn of the loop starts after it. *)

Module Cli.

Record options : Type := {
  targetDir : string;
  outputFile : string;
  targetExtensions : list string;
  excludePatterns : list string
}.

(** The four variables before the loop. *)
Definition initial : options :=
  {| targetDir := ""; outputFile := "";
     targetExtensions := []; excludePatterns := [] |}.

Definition set_targetDir (value : string) (o : options) : options :=
  {| targetDir := value; outputFile := outputFile o;
     targetExtensions := targetExtensions o;
     excludePatterns := excludePatterns o |}.

Definition set_outputFile (value : string) (o : options) : options :=
  {| targetDir := targetDir o; outputFile := value;
     targetExtensions := targetExtensions o;
     excludePatterns := excludePatterns o |}.

(** [c.toLowerCase()] on one character of the basic Latin alphabet. *)
Definition lower (c : ascii) : ascii :=
  let n := nat_of_ascii c in
  if Nat.leb 65 n && Nat.leb n 90 then ascii_of_nat (n + 32) else c.

(** [s.toLowerCase()] *)
Fixpoint toLowerCase (s : string) : string :=
  match s with
  | EmptyString => EmptyString
  | String c s' => String (lower c) (toLowerCase s')
  end.

(** [targetExtensions.push(`.${value.toLowerCase()}`)] *)
Definition push_extension (value : string) (o : options) : options :=
  {| targetDir := targetDir o; outputFile := outputFile o;
     targetExtensions := targetExtensions o ++ [("." ++ toLowerCase value)%string];
     excludePatterns := excludePatterns o |}.

(** [excludePatterns.push(value)] *)
Definition push_exclude (value : string) (o : options) : options :=
  {| targetDir := targetDir o; outputFile := outputFile o;
     targetExtensions := targetExtensions o;
     excludePatterns := excludePatterns o ++ [value] |}.

(** The [for] loop with its [switch]; the two [while] loops are the
    inner [values], which hand back to the [for] loop at the first
    argument that starts with two dashes. *)
Fixpoint parse (args : list string) (o : options) {struct args} : options :=
  match args with
  | [] => o
  | arg :: rest =>
      if String.eqb arg "--target" then
        match rest with
        | value :: rest' => parse rest' (set_targetDir value o)
        | [] => parse rest o
        end
      else if String.eqb arg "--output" then
        match rest with
        | value :: rest' => parse rest' (set_outputFile value o)
        | [] => parse rest o
        end
      else if String.eqb arg "--ext" then
        (fix values (l : list string) (o : options) {struct l} : options :=
           match l with
           | next :: l' =>
               if negb (JS.startsWith next "--")
               then values l' (push_extension next o)
               else parse l o
           | [] => o
           end) rest o
      else if String.eqb arg "--exclude" then
        (fix values (l : list string) (o : options) {struct l} : options :=
           match l with
           | next :: l' =>
               if negb (JS.startsWith next "--")
               then values l' (push_exclude next o)
               else parse l o
           | [] => o
           end) rest o
      else parse rest o
  end.

Definition parseArgs (args : list string) : options := parse args initial.

(** The two [while] loops, named. *)
Definition ext_values : list string -> options -> options :=
  fix values (l : list string) (o : options) {struct l} : options :=
    match l with
    | next :: l' =>
        if negb (JS.startsWith next "--")
        then values l' (push_extension next o)
        else parse l o
    | [] => o
    end.

Definition exclude_values : list string -> options -> options :=
  fix values (l : list string) (o : options) {struct l} : options :=
    match l with
    | next :: l' =>
        if negb (JS.startsWith next "--")
        then values l' (push_exclude next o)
        else parse l o
    | [] => o
    end.

(** *** The loop as a machine

    What the loop is about to do with the next argument: look at it as
    a switch, take it as the value of [--target] or [--output], or
    test it as one more value of [--ext] or [--exclude]. *)
Inductive mode : Type :=
| Switch
| TargetValue
| OutputValue
| ExtValues
| ExcludeValues.

Definition after_switch (arg : string) : mode :=
  if String.eqb arg "--target" then TargetValue
  else if String.eqb arg "--output" then OutputValue
  else if String.eqb arg "--ext" then ExtValues
  else if String.eqb arg "--exclude" then ExcludeValues
  else Switch.

Fixpoint scan (m : mode) (args : list string) (o : options) {struct args} : options :=
  match args with
  | [] => o
  | arg :: rest =>
      match m with
      | Switch => scan (after_switch arg) rest o
      | TargetValue => scan Switch rest (set_targetDir arg o)
      | OutputValue => scan Switch rest (set_outputFile arg o)
      | ExtValues =>
          if negb (JS.startsWith arg "--")
          then scan ExtValues rest (push_extension arg o)
          else scan (after_switch arg) rest o
      | ExcludeValues =>
          if negb (JS.startsWith arg "--")
          then scan ExcludeValues rest (push_exclude arg o)
          else scan (after_switch arg) rest o
      end
  end.

(** *** Command lines made of option groups *)

Inductive group : Type :=
| Target (value : string)
| Output (value : string)
| Ext (values : list string)
| Exclude (values : list string)
| Other (arg : string).

Definition words (g : group) : list string :=
  match g with
  | Target value => ["--target"; value]
  | Output value => ["--output"; value]
  | Ext values => "--ext" :: values
  | Exclude values => "--exclude" :: values
  | Other arg => [arg]
  end.

(** What a group does to the options. *)
Definition apply (o : options) (g : group) : options :=
  match g with
  | Target value => set_targetDir value o
  | Output value => set_outputFile value o
  | Ext values => fold_left (fun o v => push_extension v o) values o
  | Exclude values => fold_left (fun o v => push_exclude v o) values o
  | Other _ => o
  end.

Definition is_switch (arg : string) : bool :=
  String.eqb arg "--target" || String.eqb arg "--output"
  || String.eqb arg "--ext" || String.eqb arg "--exclude".

Definition is_value (arg : string) : bool := negb (JS.startsWith arg "--").

Definition takes_values (g : group) : bool :=
  match g with
  | Ext _ | Exclude _ => true
  | _ => false
  end.

(** The values of [--ext] and [--exclude] do not start with two
    dashes; an argument that is none of the four switches is on its
    own; right after the values of [--ext] or [--exclude] it starts
    with two dashes (or it would be one more value). *)
Fixpoint well_grouped (after_values : bool) (gs : list group) : bool :=
  match gs with
  | [] => true
  | g :: gs' =>
      match g with
      | Target _ | Output _ => true
      | Ext values | Exclude values => forallb is_value values
      | Other arg => negb (is_switch arg) && (negb after_values || negb (is_value arg))
      end
      && well_grouped (takes_values g) gs'
  end.

End Cli.

(** ** The process around the walks *)

(** A line on the console: [console.log] or [console.error]. *)
Inductive message : Type :=
| Log (text : string)
| Error (text : string).

(** What [main] finds around it: the tree at a directory, as both
    walks find it once the output file is there; the text of the
    ignore file of a directory when there is one; the text of a file
    or the error of reading it (the output file is not among the files
    read); the text the output file held; and for each write to the
    output file, counted from 0, the error it rejects with, if any. *)
Record world : Type := {
  tree_at : string -> node;
  gitignore_at : string -> option string;
  readFile : string -> result string;
  old_output : string;
  write_error : nat -> option error
}.

(** What a run has done so far: the console, the calls of the walks,
    the text of the output file, the number of writes to it. *)
Record process : Type := {
  console : list message;
  calls : list event;
  output : string;
  writes : nat
}.

Definition start (w : world) : process :=
  {| console := []; calls := []; output := old_output w; writes := 0 |}.

Definition IO (A : Type) : Type := process -> process * result A.

Definition io_ret {A : Type} (a : A) : IO A := fun p => (p, Ok a).

Definition io_bind {A B : Type} (m : IO A) (k : A -> IO B) : IO B :=
  fun p =>
    match m p with
    | (p', Ok a) => k a p'
    | (p', Err e) => (p', Err e)
    end.

Declare Scope io_scope.
Delimit Scope io_scope with io.
Notation "x <- m ;; k" := (io_bind m (fun x => k))
  (at level 61, m at next level, right associativity) : io_scope.

(** [await] of a walk: its calls are made, and it settles. *)
Definition await {A : Type} (m : FS A) : IO A :=
  fun p =>
    ({| console := console p; calls := calls p ++ fst m;
        output := output p; writes := writes p |}, snd m).

(** [await readFile(filePath, 'utf-8')] *)
Definition await_read (r : result string) : IO string := fun p => (p, r).

Definition console_log (text : string) : IO unit :=
  fun p =>
    ({| console := console p ++ [Log text]; calls := calls p;
        output := output p; writes := writes p |}, Ok tt).

Definition console_error (text : string) (p : process) : process :=
  {| console := console p ++ [Error text]; calls := calls p;
     output := output p; writes := writes p |}.

(** One write to the output file: it rejects and leaves the file as it
    is, or it puts [text] there. *)
Definition write (w : world) (text : string -> string) : IO unit :=
  fun p =>
    match write_error w (writes p) with
    | Some e =>
        ({| console := console p; calls := calls p;
            output := output p; writes := S (writes p) |}, Err e)
    | None =>
        ({| console := console p; calls := calls p;
            output := text (output p); writes := S (writes p) |}, Ok tt)
    end.

(** [await writeFile(outputFile, data)] *)
Definition writeFile (w : world) (data : string) : IO unit :=
  write w (fun _ => data).

(** [await appendFile(outputFile, data)] *)
Definition appendFile (w : world) (data : string) : IO unit :=
  write w (fun old => (old ++ data)%string).

(** [for (const x of l) { body }] *)
Fixpoint forEach {A : Type} (l : list A) (body : A -> IO unit) : IO unit :=
  match l with
  | [] => io_ret tt
  | x :: l' => (_ <- body x ;; forEach l' body)%io
  end.

Definition usage : string :=
  "Usage: ts-node dumpSourceCode.ts --target <directory> --output <outputFile> [--ext <extension> ...] [--exclude <pattern> ...]".

(** ** Path texts for the examples

    [extname] follows the scan of the host from the end of the text:
    the extension runs from the last dot of the last component to its
    end, and is empty when that dot is missing or opens the component.
    [join] is for a target directory written without a trailing slash
    and a relative path as [listFiles] returns it. *)

Module MiniPath.

Inductive pre_dot : Type :=
| NoDotYet
| OnlyDots
| NameBeforeDot.

Record scan_state : Type := {
  startDot : option nat;
  startPart : nat;
  end_ : option nat;
  matchedSlash : bool;
  preDotState : pre_dot
}.

Definition is_none {A : Type} (o : option A) : bool :=
  match o with
  | None => true
  | Some _ => false
  end.

(** The loop from index [i - 1] down to 0. *)
Fixpoint scan (i : nat) (path : string) (st : scan_state) : scan_state :=
  match i with
  | O => st
  | S j =>
      match String.get j path with
      | None => st
      | Some code =>
          if Ascii.eqb code "/" then
            if negb (matchedSlash st) then
              {| startDot := startDot st; startPart := S j; end_ := end_ st;
                 matchedSlash := matchedSlash st; preDotState := preDotState st |}
            else scan j path st
          else
            let st1 :=
              if is_none (end_ st) then
                {| startDot := startDot st; startPart := startPart st;
                   end_ := Some (S j); matchedSlash := false;
                   preDotState := preDotState st |}
              else st in
            let st2 :=
              if Ascii.eqb code "." then
                if is_none (startDot st1) then
                  {| startDot := Some j; startPart := startPart st1;
                     end_ := end_ st1; matchedSlash := matchedSlash st1;
                     preDotState := preDotState st1 |}
                else
                  {| startDot := startDot st1; startPart := startPart st1;
                     end_ := end_ st1; matchedSlash := matchedSlash st1;
                     preDotState := OnlyDots |}
              else if is_none (startDot st1) then st1
              else
                {| startDot := startDot st1; startPart := startPart st1;
                   end_ := end_ st1; matchedSlash := matchedSlash st1;
                   preDotState := NameBeforeDot |} in
            scan j path st2
      end
  end.

Definition extname (path : string) : string :=
  let st := scan (String.length path) path
              {| startDot := None; startPart := 0; end_ := None;
                 matchedSlash := true; preDotState := NoDotYet |} in
  match startDot st, end_ st with
  | Some d, Some e =>
      match preDotState st with
      | NoDotYet => ""
      | OnlyDots =>
          if Nat.eqb (S d) e && Nat.eqb d (S (startPart st)) then ""
          else String.substring d (e - d) path
      | NameBeforeDot => String.substring d (e - d) path
      end
  | _, _ => ""
  end.

Definition join (targetDir file : string) : string :=
  (targetDir ++ "/" ++ file)%string.

End MiniPath.

(** ** The walker *)

Section Walker.

Variable regex : Type.
(** [new RegExp(pattern)]: [None] when it throws a [SyntaxError]. *)
Variable RegExp_new : string -> option regex.
(** The matcher of a compiled pattern, tried at one index of the input. *)
Variable matcher : regex -> string -> nat -> bool.

(** [regex.test(s)] without flags: try every index from 0 to the length. *)
Definition RegExp_test (r : regex) (s : string) : bool :=
  existsb (matcher r s) (seq 0 (S (String.length s))).

Definition readGitignore (gitignore : option string) : list string :=
  match gitignore with
  | Some gitignoreContent =>
      map (fun line => if JS.startsWith line "/" then JS.substring 1 line else line)
        (filter (fun line => JS.truthy line && negb (JS.startsWith line "#"))
           (JS.split_lines gitignoreContent))
  | None => []
  end.

(** [gitignorePatterns.concat(excludePatterns)] in [main]. *)
Definition ignorePatterns (gitignore : option string)
                          (excludePatterns : list string) : list string :=
  readGitignore gitignore ++ excludePatterns.

Definition shouldIgnore (filePath : string) (ignorePatterns : list string) : bool :=
  existsb (fun pattern =>
    if String.eqb filePath pattern || JS.startsWith filePath pattern then true
    else
      match RegExp_new pattern with
      | Some regex => RegExp_test regex filePath
      | None => false
      end) ignorePatterns.

Fixpoint listFiles (ignorePatterns : list string) (dir : path) (d : node)
  {struct d} : FS (list string) :=
  readdir dir d (fun list =>
    (fix loop (list : Datatypes.list (string * node)) (results : Datatypes.list string)
       {struct list} : FS (Datatypes.list string) :=
       match list with
       | [] => ret results
       | (file, child) :: rest =>
           if JS.startsWith file "." then loop rest results
           else
             let filePath := path_join dir file in
             let relativePath := path_relative filePath in
             if shouldIgnore relativePath ignorePatterns then loop rest results
             else
               isDirectory <- stat filePath child ;;
               if isDirectory then
                 sub <- listFiles ignorePatterns filePath child ;;
                 loop rest (results ++ sub)
               else loop rest (results ++ [relativePath])
       end) list []).

Fixpoint generateTree (ignorePatterns : list string) (depth : nat) (dir : path)
  (d : node) {struct d} : FS string :=
  readdir dir d (fun list =>
    (fix loop (list : Datatypes.list (string * node)) (tree : string)
       {struct list} : FS string :=
       match list with
       | [] => ret tree
       | (file, child) :: rest =>
           if JS.startsWith file "." then loop rest tree
           else
             let filePath := path_join dir file in
             let relativePath := path_relative filePath in
             if shouldIgnore relativePath ignorePatterns then loop rest tree
             else
               isDirectory <- stat filePath child ;;
               let tree := (tree ++ (JS.repeat "  " depth ++ "- " ++ file ++ String JS.LF ""))%string in
               if isDirectory then
                 sub <- generateTree ignorePatterns (depth + 1) filePath child ;;
                 loop rest (tree ++ sub)%string
               else loop rest tree
       end) list "").

(** *** The loops, named

    The two [for] loops above, as functions of their own, so that
    lemmas can speak about an iteration that starts in the middle of a
    listing with results already collected. *)

Definition listFiles_loop (ignorePatterns : list string) (dir : path)
  : list (string * node) -> list string -> FS (list string) :=
  fix loop (list : Datatypes.list (string * node)) (results : Datatypes.list string)
    {struct list} : FS (Datatypes.list string) :=
    match list with
    | [] => ret results
    | (file, child) :: rest =>
        if JS.startsWith file "." then loop rest results
        else
          let filePath := path_join dir file in
          let relativePath := path_relative filePath in
          if shouldIgnore relativePath ignorePatterns then loop rest results
          else
            isDirectory <- stat filePath child ;;
            if isDirectory then
              sub <- listFiles ignorePatterns filePath child ;;
              loop rest (results ++ sub)
            else loop rest (results ++ [relativePath])
    end.

Definition generateTree_loop (ignorePatterns : list string) (depth : nat) (dir : path)
  : list (string * node) -> string -> FS string :=
  fix loop (list : Datatypes.list (string * node)) (tree : string)
    {struct list} : FS string :=
    match list with
    | [] => ret tree
    | (file, child) :: rest =>
        if JS.startsWith file "." then loop rest tree
        else
          let filePath := path_join dir file in
          let relativePath := path_relative filePath in
          if shouldIgnore relativePath ignorePatterns then loop rest tree
          else
            isDirectory <- stat filePath child ;;
            let tree := (tree ++ (JS.repeat "  " depth ++ "- " ++ file ++ String JS.LF ""))%string in
            if isDirectory then
              sub <- generateTree ignorePatterns (depth + 1) filePath child ;;
              loop rest (tree ++ sub)%string
            else loop rest tree
    end.

(** ** The specification side

    The words of the specification, as definitions: which entries
    survive the two filters, in which order the walk meets them, what
    the listing and the rendering are. *)

(** A hidden entry: the base name starts with a dot. *)
Definition hidden (file : string) : bool := JS.startsWith file ".".

(** An entry of [dir] that a walk skips. *)
Definition excluded (pats : list string) (dir : path) (file : string) : bool :=
  hidden file || shouldIgnore (path_relative (path_join dir file)) pats.

(** The surviving entries below [dir], each with what lies there, in
    depth-first order: an entry, then what survives inside it. *)
Fixpoint survivors (pats : list string) (dir : path) (d : node)
  {struct d} : list (path * node) :=
  match d with
  | Dir entries =>
      flat_map (fun e : string * node =>
        let (file, child) := e in
        if excluded pats dir file then []
        else (path_join dir file, child)
               :: survivors pats (path_join dir file) child) entries
  | _ => []
  end.

(** The calls a walk makes on the surviving entries, up to the first
    one that rejects, and that rejection. *)
Fixpoint replay (l : list (path * node)) : list event * option error :=
  match l with
  | [] => ([], None)
  | (p, n) :: l' =>
      match n with
      | Missing e => ([(Stat p, Some e)], Some e)
      | Denied e => ([(Stat p, None); (Readdir p, Some e)], Some e)
      | File => let (t, r) := replay l' in ((Stat p, None) :: t, r)
      | Dir _ => let (t, r) := replay l' in ((Stat p, None) :: (Readdir p, None) :: t, r)
      end
  end.

(** How a walk over the surviving entries [l] settles: with the first
    rejection, or else with the value [a]. *)
Definition settle {A : Type} (l : list (path * node)) (a : A) : FS A :=
  (fst (replay l),
   match snd (replay l) with
   | Some e => Err e
   | None => Ok a
   end).

Definition is_file (n : node) : bool :=
  match n with
  | File => true
  | _ => false
  end.

(** The relative paths of the files among the entries. *)
Definition files (l : list (path * node)) : list string :=
  map (fun pn => path_relative (fst pn)) (filter (fun pn => is_file (snd pn)) l).

(** One line of the tree. *)
Definition line (depth : nat) (file : string) : string :=
  (JS.repeat "  " depth ++ "- " ++ file ++ String JS.LF "")%string.

(** One line per entry: the base name, indented by the number of
    directories between [dir] and the entry, counted from [depth]. *)
Definition lines (depth : nat) (dir : path) (l : list (path * node)) : string :=
  String.concat ""
    (map (fun pn : path * node =>
            line (depth + (length (fst pn) - S (length dir))) (last (fst pn) "")) l).

(** The listing in the words of the specification: each surviving
    entry in order, a directory by the listing of its contents, a file
    by its own relative path. *)
Fixpoint listing (pats : list string) (dir : path) (d : node)
  {struct d} : list string :=
  match d with
  | Dir entries =>
      flat_map (fun e : string * node =>
        let (file, child) := e in
        if excluded pats dir file then []
        else
          match child with
          | File => [path_relative (path_join dir file)]
          | Dir _ => listing pats (path_join dir file) child
          | _ => []
          end) entries
  | _ => []
  end.

(** The rendering in the words of the specification: each surviving
    entry in order by its line, a directory's line followed at once by
    the rendering of its contents one level deeper. *)
Fixpoint rendering (pats : list string) (depth : nat) (dir : path) (d : node)
  {struct d} : string :=
  match d with
  | Dir entries =>
      String.concat ""
        (map (fun e : string * node =>
           let (file, child) := e in
           if excluded pats dir file then ""
           else (line depth file ++ rendering pats (S depth) (path_join dir file) child)%string)
           entries)
  | _ => ""
  end.

(** What [listFiles] and [generateTree] are to compute on [d]: the
    listing of [dir] is read, then the surviving entries are walked. *)
Definition listFiles_run (pats : list string) (dir : path) (d : node)
  : FS (list string) :=
  match d with
  | Dir _ =>
      _ <- fulfil (Readdir dir) tt ;;
      settle (survivors pats dir d) (files (survivors pats dir d))
  | File => reject (Readdir dir) ENOTDIR
  | Denied e | Missing e => reject (Readdir dir) e
  end.

Definition generateTree_run (pats : list string) (depth : nat) (dir : path) (d : node)
  : FS string :=
  match d with
  | Dir _ =>
      _ <- fulfil (Readdir dir) tt ;;
      settle (survivors pats dir d) (lines depth dir (survivors pats dir d))
  | File => reject (Readdir dir) ENOTDIR
  | Denied e | Missing e => reject (Readdir dir) e
  end.

(** [at_path d q n]: following the names [q] down from [d] leads to [n]. *)
Inductive at_path : node -> path -> node -> Prop :=
| at_entry (entries : list (string * node)) (file : string) (child : node) :
    In (file, child) entries -> at_path (Dir entries) [file] child
| at_deeper (entries : list (string * node)) (file : string) (child : node)
            (q : path) (n : node) :
    In (file, child) entries -> at_path child q n ->
    at_path (Dir entries) (file :: q) n.

(** Every name along [q], taken from [dir] downwards, passes both
    filters. *)
Fixpoint kept (pats : list string) (dir : path) (q : path) : bool :=
  match q with
  | [] => true
  | file :: q' => negb (excluded pats dir file) && kept pats (path_join dir file) q'
  end.

(** The path a call is made on. *)
Definition call_path (c : syscall) : path :=
  match c with
  | Readdir p => p
  | Stat p => p
  end.

(** A node on which one of the two calls rejects. *)
Definition rejects (n : node) : bool :=
  match n with
  | Denied _ | Missing _ => true
  | File | Dir _ => false
  end.

(** *** Names as a directory listing gives them

    The names of one directory are pairwise different and hold no
    separator. *)

Fixpoint no_sep (s : string) : bool :=
  match s with
  | EmptyString => true
  | String c s' => negb (Ascii.eqb c "/") && no_sep s'
  end.

Fixpoint distinct (names : list string) : bool :=
  match names with
  | [] => true
  | x :: names' => negb (existsb (String.eqb x) names') && distinct names'
  end.

Fixpoint well_named (d : node) : bool :=
  match d with
  | Dir entries =>
      distinct (map fst entries)
      && forallb (fun e : string * node =>
                    let (file, child) := e in no_sep file && well_named child)
                 entries
  | _ => true
  end.

(** *** The ignore file, line by line *)

(** A line ending of the ignore file: bare, or with a carriage return. *)
Inductive eol : Type :=
| Bare
| WithCR.

Definition eol_string (t : eol) : string :=
  match t with
  | Bare => String JS.LF ""
  | WithCR => String JS.CR (String JS.LF "")
  end.

(** The text of a file made of terminated lines and a last line. *)
Fixpoint unlines (ls : list (string * eol)) (final : string) : string :=
  match ls with
  | [] => final
  | (l, t) :: ls' => (l ++ eol_string t ++ unlines ls' final)%string
  end.

Fixpoint no_LF (s : string) : bool :=
  match s with
  | EmptyString => true
  | String c s' => negb (Ascii.eqb c JS.LF) && no_LF s'
  end.

Fixpoint ends_with_CR (s : string) : bool :=
  match s with
  | EmptyString => false
  | String c EmptyString => Ascii.eqb c JS.CR
  | String _ s' => ends_with_CR s'
  end.

(** A line holds no line feed, and its bare ending is not preceded by a
    carriage return (which would make the ending a [WithCR] one). *)
Definition well_terminated (lt : string * eol) : Prop :=
  no_LF (fst lt) = true /\ (snd lt = Bare -> ends_with_CR (fst lt) = false).

(** The patterns of the ignore file in the words of the specification:
    empty lines and comments are dropped, one leading slash is removed. *)
Fixpoint retained (ls : list string) : list string :=
  match ls with
  | [] => []
  | EmptyString :: ls' => retained ls'
  | String c rest :: ls' =>
      if Ascii.eqb c "#" then retained ls'
      else if Ascii.eqb c "/" then rest :: retained ls'
      else String c rest :: retained ls'
  end.

(** *** Trees for the examples *)

(** A root with [src/a.txt], [src/.hidden], [node_modules/x.js] and a
    [.git] directory. *)
Definition scenario : node :=
  Dir [("src", Dir [("a.txt", File); (".hidden", File)]);
       ("node_modules", Dir [("x.js", File)]);
       (".git", Dir [("HEAD", File)])].

(** The same root after [gone] has vanished, with an entry after it. *)
Definition scenario_gone : node :=
  Dir [("src", Dir [("a.txt", File)]);
       ("gone", Missing "ENOENT");
       ("later", File)].

(** An ignore file with both line endings, a comment, an empty line, an
    anchored line and a line made of a single slash. *)
Definition scenario_lines : list (string * eol) :=
  [("node_modules", Bare); ("# build output", WithCR); ("", Bare);
   ("/build", WithCR); ("/", Bare)].

(** A command line for the scenario, as arguments and as groups. *)
Definition scenario_args : list string :=
  ["--target"; "proj"; "--output"; "out.md"; "--ext"; "TXT"; "--exclude"; "dist"].

Definition scenario_groups : list Cli.group :=
  [Cli.Target "proj"; Cli.Output "out.md"; Cli.Ext ["TXT"]; Cli.Exclude ["dist"]].

Definition scenario_options : Cli.options := Cli.parseArgs scenario_args.

(** The scenario around [main]: an ignore file with [node_modules],
    [a.txt] with a text, an output file left by an earlier run. *)
Definition scenario_world : world :=
  {| tree_at := fun _ => scenario;
     gitignore_at := fun _ => Some "node_modules";
     readFile := fun filePath =>
       if String.eqb filePath "proj/src/a.txt" then Ok "hello" else Err "ENOENT";
     old_output := "stale";
     write_error := fun _ => None |}.

(** The same with [gone] vanished from the tree. *)
Definition scenario_world_gone : world :=
  {| tree_at := fun _ => scenario_gone;
     gitignore_at := fun _ => Some "node_modules";
     readFile := readFile scenario_world;
     old_output := "stale";
     write_error := fun _ => None |}.

(** The same with no file that can be read. *)
Definition scenario_world_unreadable : world :=
  {| tree_at := fun _ => scenario;
     gitignore_at := fun _ => Some "node_modules";
     readFile := fun _ => Err "EACCES";
     old_output := "stale";
     write_error := fun _ => None |}.

(** The same with an output file that cannot be written. *)
Definition scenario_world_readonly : world :=
  {| tree_at := fun _ => scenario;
     gitignore_at := fun _ => Some "node_modules";
     readFile := readFile scenario_world;
     old_output := "stale";
     write_error := fun _ => Some "EACCES" |}.

(** *** The dump

    [path.extname] and [path.join] on the text of a path are builtins
    of the host, like [RegExp], and parameters here. *)

(** [path.extname(filePath)] *)
Variable extname : string -> string.
(** [path.join(targetDir, file)] *)
Variable join : string -> string -> string.

Definition isTargetFile (filePath : string) (targetExtensions : list string) : bool :=
  let ext := Cli.toLowerCase (extname filePath) in
  existsb (String.eqb ext) targetExtensions.

Definition nl : string := String JS.LF "".

(** The body of [main] after the arguments are read and checked. *)
Definition dump (w : world) (o : Cli.options) : IO unit :=
  let targetDir := Cli.targetDir o in
  let targetExtensions := Cli.targetExtensions o in
  let excludePatterns := Cli.excludePatterns o in
  let gitignorePatterns := readGitignore (gitignore_at w targetDir) in
  let ignorePatterns := gitignorePatterns ++ excludePatterns in
  (_ <- writeFile w "" ;;
   _ <- appendFile w ("## Find Output" ++ nl) ;;
   allFiles <- await (listFiles ignorePatterns [] (tree_at w targetDir)) ;;
   _ <- forEach allFiles (fun file => appendFile w (file ++ nl)) ;;
   _ <- appendFile w (nl ++ "## Directory Tree" ++ nl) ;;
   treeStructure <- await (generateTree ignorePatterns 0 [] (tree_at w targetDir)) ;;
   _ <- appendFile w treeStructure ;;
   _ <- appendFile w (nl ++ "## Source Code" ++ nl) ;;
   forEach allFiles (fun file =>
     let filePath := join targetDir file in
     if negb (isTargetFile filePath targetExtensions) then
       console_log ("Ignored (not target extension): " ++ file)
     else
       _ <- appendFile w ("```file:" ++ file ++ nl) ;;
       fileContent <- await_read (readFile w filePath) ;;
       _ <- appendFile w (fileContent ++ nl ++ "```" ++ nl ++ nl) ;;
       console_log ("Processed: " ++ file)))%io%string.

(** [main] and the [catch] around it: the process as it ends, and its
    exit code. *)
Definition main (w : world) (args : list string) : process * nat :=
  let o := Cli.parseArgs args in
  if negb (JS.truthy (Cli.targetDir o)) || negb (JS.truthy (Cli.outputFile o)) then
    (console_error usage (start w), 1)
  else
    match dump w o (start w) with
    | (p, Ok _) => (p, 0)
    | (p, Err e) => (console_error e p, 1)
    end.

(** *** The text of a dump, section by section *)

(** The patterns [main] walks with. *)
Definition patterns_of (w : world) (o : Cli.options) : list string :=
  ignorePatterns (gitignore_at w (Cli.targetDir o)) (Cli.excludePatterns o).

(** One listed path on each line. *)
Definition find_output (allFiles : list string) : string :=
  String.concat "" (map (fun file => (file ++ nl)%string) allFiles).

(** The text of a file, empty when it cannot be read. *)
Definition text_of (w : world) (filePath : string) : string :=
  match readFile w filePath with
  | Ok fileContent => fileContent
  | Err _ => ""
  end.

(** A fence that names the file, its text, the closing fence and an
    empty line. *)
Definition source_block (file fileContent : string) : string :=
  ("```file:" ++ file ++ nl ++ fileContent ++ nl ++ "```" ++ nl ++ nl)%string.

Definition is_target (o : Cli.options) (file : string) : bool :=
  isTargetFile (join (Cli.targetDir o) file) (Cli.targetExtensions o).

(** The blocks of the listed files with a target extension. *)
Definition source_code (w : world) (o : Cli.options) (allFiles : list string) : string :=
  String.concat ""
    (map (fun file => source_block file (text_of w (join (Cli.targetDir o) file)))
         (filter (is_target o) allFiles)).

(** The two headers and the two walks, up to the header of the blocks. *)
Definition sections (allFiles : list string) (treeStructure : string) : string :=
  ("## Find Output" ++ nl ++ find_output allFiles
   ++ nl ++ "## Directory Tree" ++ nl ++ treeStructure
   ++ nl ++ "## Source Code" ++ nl)%string.

(** What the console says about each listed file. *)
Definition report (o : Cli.options) (allFiles : list string) : list message :=
  map (fun file =>
         if is_target o file then Log ("Processed: " ++ file)
         else Log ("Ignored (not target extension): " ++ file)) allFiles.

(** The body of the second loop of [main], named. *)
Definition dump_file (w : world) (o : Cli.options) (file : string) : IO unit :=
  let filePath := join (Cli.targetDir o) file in
  if negb (isTargetFile filePath (Cli.targetExtensions o)) then
    console_log ("Ignored (not target extension): " ++ file)
  else
    (_ <- appendFile w ("```file:" ++ file ++ nl) ;;
     fileContent <- await_read (readFile w filePath) ;;
     _ <- appendFile w (fileContent ++ nl ++ "```" ++ nl ++ nl) ;;
     console_log ("Processed: " ++ file))%io%string.

(** ** Strings: what the builtins compute *)

Lemma startsWith_iff (s p : string) :
  JS.startsWith s p = true <-> exists rest, s = (p ++ rest)%string.
Proof.
  unfold JS.startsWith. revert s.
  induction p as [|c p IH]; intros s; simpl.
  - split; [intros _; now exists s | intros _; now destruct s].
  - destruct s as [|c' s]; simpl.
    + split; [discriminate | intros [rest H]; discriminate].
    + destruct (Ascii.ascii_dec c c') as [->|Hne].
      * rewrite IH. split; intros [rest H]; exists rest; congruence.
      * split; [discriminate | intros [rest H]; congruence].
Qed.

Lemma startsWith_empty (s : string) : JS.startsWith s "" = true.
Proof. apply startsWith_iff. now exists s. Qed.

Lemma startsWith_self (s : string) : JS.startsWith s s = true.
Proof.
  apply startsWith_iff. exists ""%string.
  induction s as [|c s IH]; simpl; congruence.
Qed.

Lemma substring_all (s : string) : String.substring 0 (String.length s) s = s.
Proof. induction s as [|c s IH]; simpl; congruence. Qed.

Lemma substring_1 (c : ascii) (s : string) : JS.substring 1 (String c s) = s.
Proof.
  unfold JS.substring. simpl. rewrite Nat.sub_0_r. apply substring_all.
Qed.

Lemma startsWith_char (c a : ascii) (s : string) :
  JS.startsWith (String c s) (String a "") = Ascii.eqb c a.
Proof.
  unfold JS.startsWith. simpl.
  destruct (Ascii.ascii_dec a c) as [->|Hne].
  - rewrite Ascii.eqb_refl. now destruct s.
  - symmetry. apply Ascii.eqb_neq. congruence.
Qed.

Lemma split_lines_final (s : string) :
  no_LF s = true -> JS.split_lines s = [s].
Proof.
  induction s as [|c s IH]; simpl; [reflexivity|].
  intros H. apply andb_prop in H as [Hc Hs].
  apply negb_true_iff in Hc. rewrite Hc.
  destruct s as [|c' s']; [reflexivity|].
  assert (Hc' : Ascii.eqb c' JS.LF = false).
  { simpl in Hs. apply andb_prop in Hs as [Hs _]. now apply negb_true_iff. }
  rewrite Hc', andb_false_r. now rewrite (IH Hs).
Qed.

Lemma split_lines_line (l : string) (t : eol) (rest : string) :
  well_terminated (l, t) ->
  JS.split_lines (l ++ eol_string t ++ rest) = l :: JS.split_lines rest.
Proof.
  unfold well_terminated. simpl fst. simpl snd.
  induction l as [|c l IH]; intros [Hlf Hcr].
  - destruct t; reflexivity.
  - simpl in Hlf. apply andb_prop in Hlf as [Hc Hl].
    apply negb_true_iff in Hc.
    change (String c l ++ eol_string t ++ rest)%string
      with (String c (l ++ eol_string t ++ rest)%string).
    cbn [JS.split_lines]. rewrite Hc.
    assert (Htail : JS.split_lines (l ++ eol_string t ++ rest) = l :: JS.split_lines rest).
    { apply IH. split; [exact Hl|].
      intros Ht. specialize (Hcr Ht). destruct l; [reflexivity | exact Hcr]. }
    destruct l as [|c' l'].
    + destruct t; simpl.
      * (* the ending is bare: [c] is not a carriage return *)
        assert (Hc' : Ascii.eqb c JS.CR = false) by (now apply Hcr).
        rewrite Hc'. reflexivity.
      * replace (Ascii.eqb JS.CR JS.LF) with false by reflexivity.
        rewrite andb_false_r. reflexivity.
    + change (String c' l' ++ eol_string t ++ rest)%string
        with (String c' (l' ++ eol_string t ++ rest)%string) in *.
      assert (Hc' : Ascii.eqb c' JS.LF = false).
      { simpl in Hl. apply andb_prop in Hl as [Hl _]. now apply negb_true_iff. }
      cbv beta iota. rewrite Hc', andb_false_r. rewrite Htail. reflexivity.
Qed.

Lemma split_lines_unlines (ls : list (string * eol)) (final : string) :
  Forall well_terminated ls -> no_LF final = true ->
  JS.split_lines (unlines ls final) = map fst ls ++ [final].
Proof.
  intros Hls Hfinal. induction Hls as [|[l t] ls Hl _ IH]; simpl.
  - now apply split_lines_final.
  - rewrite split_lines_line by exact Hl. now rewrite IH.
Qed.

Lemma readGitignore_retained (content : string) :
  readGitignore (Some content) = retained (JS.split_lines content).
Proof.
  unfold readGitignore.
  induction (JS.split_lines content) as [|l ls IH]; [reflexivity|].
  destruct l as [|c l]; [exact IH|].
  cbn [filter JS.truthy andb retained].
  rewrite (startsWith_char c "#" l).
  destruct (Ascii.eqb c "#") eqn:Hhash; cbn [negb map]; [exact IH|].
  rewrite (startsWith_char c "/" l).
  destruct (Ascii.eqb c "/") eqn:Hslash.
  - rewrite substring_1. now rewrite IH.
  - now rewrite IH.
Qed.

(** Every text is made of such lines, so [split_lines_unlines] speaks
    about every ignore file. *)
Lemma text_has_lines (content : string) :
  exists ls final,
    content = unlines ls final
    /\ Forall well_terminated ls /\ no_LF final = true.
Proof.
  induction content as [|c rest (ls & final & -> & Hls & Hfinal)].
  - exists [], ""%string. now repeat split.
  - destruct (Ascii.eqb c JS.LF) eqn:Hc.
    + apply Ascii.eqb_eq in Hc. subst c.
      exists (("", Bare) :: ls)%string, final. repeat split; try assumption.
      constructor; [now split | assumption].
    + destruct ls as [|[l t] ls].
      * exists [], (String c final). repeat split; [constructor|].
        simpl. now rewrite Hc.
      * inversion Hls as [|? ? [Hl Hcr] Hls']; subst. cbn [fst snd] in Hl, Hcr.
        destruct (Ascii.eqb c JS.CR) eqn:Hcr'.
        -- apply Ascii.eqb_eq in Hcr'. subst c.
           destruct l as [|c' l'].
           ++ destruct t.
              ** exists (("", WithCR) :: ls)%string, final.
                 repeat split; try assumption.
                 constructor; [split; [reflexivity | discriminate] | assumption].
              ** exists ((String JS.CR "", WithCR) :: ls), final.
                 repeat split; try assumption.
                 constructor; [split; [reflexivity | discriminate] | assumption].
           ++ exists ((String JS.CR (String c' l'), t) :: ls), final.
              repeat split; try assumption.
              constructor; [|assumption]. split; [exact Hl | exact Hcr].
        -- exists ((String c l, t) :: ls), final.
           repeat split; try assumption.
           constructor; [|assumption]. split.
           ++ cbn [fst no_LF]. now rewrite Hc, Hl.
           ++ cbn [fst snd]. intros Ht. specialize (Hcr Ht).
              destruct l; [exact Hcr' | exact Hcr].
Qed.

(** ** The membership test *)

Lemma RegExp_test_iff (r : regex) (s : string) :
  RegExp_test r s = true <->
  exists i, i <= String.length s /\ matcher r s i = true.
Proof.
  unfold RegExp_test. rewrite existsb_exists. split.
  - intros (i & Hin & Hm). apply in_seq in Hin. exists i. split; [lia | exact Hm].
  - intros (i & Hle & Hm). exists i. split; [apply in_seq; lia | exact Hm].
Qed.

Lemma shouldIgnore_empty_pattern (filePath : string) (pats : list string) :
  In ""%string pats -> shouldIgnore filePath pats = true.
Proof.
  intros Hin. unfold shouldIgnore. apply existsb_exists.
  exists ""%string. split; [exact Hin|].
  now rewrite startsWith_empty, orb_true_r.
Qed.

Lemma slash_line_retained (ls : list string) :
  In "/"%string ls -> In ""%string (retained ls).
Proof.
  induction ls as [|l ls IH]; intros Hin; [destruct Hin|].
  destruct Hin as [-> | Hin].
  - now left.
  - specialize (IH Hin). destruct l as [|c l]; [exact IH|].
    cbn [retained].
    destruct (Ascii.eqb c "#"); [exact IH|].
    destruct (Ascii.eqb c "/"); now right.
Qed.

(** ** The walks, entry by entry *)

Lemma bind_ok {A B : Type} (t : list event) (a : A) (k : A -> FS B) :
  bind (t, Ok a) k = (t ++ fst (k a), snd (k a)).
Proof. simpl. now destruct (k a). Qed.

Lemma bind_err {A B : Type} (t : list event) (e : error) (k : A -> FS B) :
  bind (t, Err e) k = (t, Err e).
Proof. reflexivity. Qed.

Lemma bind_fulfil {A B : Type} (c : syscall) (a : A) (k : A -> FS B) :
  bind (fulfil c a) k = ((c, None) :: fst (k a), snd (k a)).
Proof. unfold fulfil. now rewrite bind_ok. Qed.

Lemma bind_reject {A B : Type} (c : syscall) (e : error) (k : A -> FS B) :
  bind (reject c e) k = reject c e.
Proof. reflexivity. Qed.

Lemma listFiles_unfold (pats : list string) (dir : path) (d : node) :
  listFiles pats dir d
  = readdir dir d (fun list => listFiles_loop pats dir list []).
Proof. destruct d; reflexivity. Qed.

Lemma generateTree_unfold (pats : list string) (depth : nat) (dir : path) (d : node) :
  generateTree pats depth dir d
  = readdir dir d (fun list => generateTree_loop pats depth dir list "").
Proof. destruct d; reflexivity. Qed.

Lemma replay_app (l1 l2 : list (path * node)) :
  replay (l1 ++ l2)
  = match snd (replay l1) with
    | Some e => replay l1
    | None => (fst (replay l1) ++ fst (replay l2), snd (replay l2))
    end.
Proof.
  induction l1 as [|[p n] l1 IH]; simpl.
  - now destruct (replay l2).
  - destruct n; try reflexivity.
    + rewrite IH. destruct (replay l1) as [t [e|]]; simpl; [reflexivity|].
      now destruct (replay l2).
    + rewrite IH. destruct (replay l1) as [t [e|]]; simpl; [reflexivity|].
      now destruct (replay l2).
Qed.

Lemma replay_file (p : path) (l : list (path * node)) :
  replay ((p, File) :: l) = ((Stat p, None) :: fst (replay l), snd (replay l)).
Proof. simpl. now destruct (replay l). Qed.

Lemma replay_dir (p : path) (sub : list (string * node)) (l : list (path * node)) :
  replay ((p, Dir sub) :: l)
  = ((Stat p, None) :: (Readdir p, None) :: fst (replay l), snd (replay l)).
Proof. simpl. now destruct (replay l). Qed.

Lemma files_file (p : path) (l : list (path * node)) :
  files ((p, File) :: l) = path_relative p :: files l.
Proof. reflexivity. Qed.

Lemma files_dir (p : path) (sub : list (string * node)) (l : list (path * node)) :
  files ((p, Dir sub) :: l) = files l.
Proof. reflexivity. Qed.

Lemma files_app (l1 l2 : list (path * node)) :
  files (l1 ++ l2) = files l1 ++ files l2.
Proof. unfold files. now rewrite filter_app, map_app. Qed.

Lemma survivors_cons (pats : list string) (dir : path)
      (file : string) (child : node) (rest : list (string * node)) :
  survivors pats dir (Dir ((file, child) :: rest))
  = (if excluded pats dir file then []
     else (path_join dir file, child) :: survivors pats (path_join dir file) child)
    ++ survivors pats dir (Dir rest).
Proof. reflexivity. Qed.

Lemma listFiles_loop_settles (pats : list string) (dir : path)
      (entries : list (string * node)) :
  Forall (fun e => forall dir', listFiles pats dir' (snd e) = listFiles_run pats dir' (snd e))
         entries ->
  forall results,
    listFiles_loop pats dir entries results
    = settle (survivors pats dir (Dir entries))
             (results ++ files (survivors pats dir (Dir entries))).
Proof.
  induction 1 as [|[file child] rest Hchild _ IH]; intros results.
  - unfold settle. simpl. now rewrite app_nil_r.
  - rewrite survivors_cons. cbn [listFiles_loop]. fold (listFiles_loop pats dir).
    unfold excluded, hidden.
    destruct (JS.startsWith file ".") eqn:Hdot; [apply IH|].
    destruct (shouldIgnore (path_relative (path_join dir file)) pats) eqn:Hign;
      [apply IH|].
    cbn [orb]. simpl in Hchild. specialize (Hchild (path_join dir file)).
    unfold settle.
    destruct child as [|sub|e|e]; cbn [stat].
    + rewrite bind_fulfil, IH.
      change (survivors pats (path_join dir file) File) with (@nil (path * node)).
      cbn [app]. unfold settle. rewrite replay_file, files_file. cbn [fst snd].
      now rewrite <- app_assoc.
    + rewrite bind_fulfil, Hchild. unfold listFiles_run, settle.
      rewrite bind_fulfil. cbn [fst snd]. rewrite <- app_comm_cons.
      rewrite replay_dir, files_dir, replay_app, files_app. cbn [fst snd].
      destruct (replay (survivors pats (path_join dir file) (Dir sub)))
        as [t1 [e|]] eqn:Hsub; cbn [fst snd].
      * rewrite bind_err. reflexivity.
      * rewrite bind_ok, IH. unfold settle. cbn [fst snd].
        now rewrite <- !app_assoc.
    + rewrite bind_fulfil, Hchild. reflexivity.
    + reflexivity.
Qed.

Lemma listFiles_settles (pats : list string) (d : node) :
  forall dir, listFiles pats dir d = listFiles_run pats dir d.
Proof.
  induction d as [|entries IH|e|e] using node_induction; intros dir;
    try reflexivity.
  rewrite listFiles_unfold. unfold readdir, listFiles_run.
  rewrite !bind_fulfil.
  now rewrite (listFiles_loop_settles pats dir entries IH).
Qed.

Lemma append_nil_r (s : string) : (s ++ "")%string = s.
Proof. induction s as [|c s IH]; simpl; congruence. Qed.

Lemma append_assoc (s1 s2 s3 : string) :
  ((s1 ++ s2) ++ s3)%string = (s1 ++ s2 ++ s3)%string.
Proof. induction s1 as [|c s1 IH]; simpl; congruence. Qed.

Lemma concat_empty_cons (x : string) (xs : list string) :
  String.concat "" (x :: xs) = (x ++ String.concat "" xs)%string.
Proof. destruct xs; simpl; [now rewrite append_nil_r | reflexivity]. Qed.

Lemma concat_empty_app (l1 l2 : list string) :
  String.concat "" (l1 ++ l2)
  = (String.concat "" l1 ++ String.concat "" l2)%string.
Proof.
  induction l1 as [|x l1 IH]; [reflexivity|].
  rewrite <- app_comm_cons, !concat_empty_cons, IH. now rewrite append_assoc.
Qed.

Lemma lines_app (depth : nat) (dir : path) (l1 l2 : list (path * node)) :
  lines depth dir (l1 ++ l2) = (lines depth dir l1 ++ lines depth dir l2)%string.
Proof. unfold lines. now rewrite map_app, concat_empty_app. Qed.

Lemma lines_entry (depth : nat) (dir : path) (file : string) (n : node)
      (l : list (path * node)) :
  lines depth dir ((path_join dir file, n) :: l)
  = (line depth file ++ lines depth dir l)%string.
Proof.
  unfold lines. rewrite map_cons, concat_empty_cons. cbn [fst].
  unfold path_join. rewrite last_last, length_app. cbn [length].
  replace (depth + (length dir + 1 - S (length dir))) with depth by lia.
  reflexivity.
Qed.

(** *** Where the surviving entries lie *)

Lemma kept_app (pats : list string) (q r : path) :
  forall dir, kept pats dir (q ++ r) = kept pats dir q && kept pats (dir ++ q) r.
Proof.
  induction q as [|file q IH]; intros dir; cbn [app kept].
  - now rewrite app_nil_r.
  - rewrite IH. unfold path_join. rewrite <- app_assoc. cbn [app].
    now rewrite andb_assoc.
Qed.

Lemma survivors_at (pats : list string) (d : node) :
  forall dir p n,
    In (p, n) (survivors pats dir d) <->
    exists q, p = dir ++ q /\ at_path d q n /\ kept pats dir q = true.
Proof.
  induction d as [|entries IH|e|e] using node_induction; intros dir p n;
    try (split; [intros [] | intros (q & _ & H & _); inversion H]).
  cbn [survivors]. rewrite in_flat_map. split.
  - intros ([file child] & Hin & Hp).
    destruct (excluded pats dir file) eqn:Hex; [destruct Hp|].
    destruct Hp as [Hp | Hp].
    + inversion Hp; subst. exists [file]. repeat split.
      * now apply at_entry.
      * cbn [kept]. now rewrite Hex.
    + rewrite Forall_forall in IH. specialize (IH _ Hin). cbn [snd] in IH.
      apply IH in Hp as (q & -> & Hat & Hkept).
      exists (file :: q). repeat split.
      * unfold path_join. now rewrite <- app_assoc.
      * now apply at_deeper with child.
      * cbn [kept]. now rewrite Hex, Hkept.
  - intros (q & -> & Hat & Hkept).
    inversion Hat as [es file child Hin | es file child q' n' Hin Hat']; subst;
      cbn [kept] in Hkept; apply andb_prop in Hkept as [Hex Hkept];
      apply negb_true_iff in Hex.
    + exists (file, n). split; [exact Hin|]. rewrite Hex. now left.
    + exists (file, child). split; [exact Hin|]. rewrite Hex. right.
      rewrite Forall_forall in IH. specialize (IH _ Hin). cbn [snd] in IH.
      apply IH. exists q'. repeat split; [|exact Hat'|exact Hkept].
      unfold path_join. now rewrite <- app_assoc.
Qed.

Lemma at_path_nonempty (d : node) (q : path) (n : node) :
  at_path d q n -> q <> [].
Proof. now destruct 1. Qed.

Lemma survivors_longer (pats : list string) (dir : path) (d : node)
      (p : path) (n : node) :
  In (p, n) (survivors pats dir d) -> length dir < length p.
Proof.
  intros H. apply survivors_at in H as (q & -> & Hat & _).
  apply at_path_nonempty in Hat. rewrite length_app.
  destruct q; [congruence | simpl; lia].
Qed.

Lemma lines_deeper (pats : list string) (depth : nat) (dir : path)
      (file : string) (d : node) :
  lines depth dir (survivors pats (path_join dir file) d)
  = lines (depth + 1) (path_join dir file) (survivors pats (path_join dir file) d).
Proof.
  unfold lines. f_equal. apply map_ext_in. intros [p n] Hin.
  apply survivors_longer in Hin. cbn [fst].
  unfold path_join in *. rewrite length_app in *. cbn [length] in *.
  f_equal. lia.
Qed.

Lemma generateTree_loop_settles (pats : list string) (depth : nat) (dir : path)
      (entries : list (string * node)) :
  Forall (fun e => forall depth' dir',
            generateTree pats depth' dir' (snd e)
            = generateTree_run pats depth' dir' (snd e)) entries ->
  forall tree,
    generateTree_loop pats depth dir entries tree
    = settle (survivors pats dir (Dir entries))
             (tree ++ lines depth dir (survivors pats dir (Dir entries)))%string.
Proof.
  induction 1 as [|[file child] rest Hchild _ IH]; intros tree.
  - unfold settle. simpl. now rewrite append_nil_r.
  - rewrite survivors_cons. cbn [generateTree_loop].
    fold (generateTree_loop pats depth dir).
    unfold excluded, hidden.
    destruct (JS.startsWith file ".") eqn:Hdot; [apply IH|].
    destruct (shouldIgnore (path_relative (path_join dir file)) pats) eqn:Hign;
      [apply IH|].
    cbn [orb]. simpl in Hchild.
    specialize (Hchild (depth + 1) (path_join dir file)).
    fold (line depth file).
    destruct child as [|sub|e|e]; cbn [stat].
    + rewrite bind_fulfil, IH.
      change (survivors pats (path_join dir file) File) with (@nil (path * node)).
      cbn [app]. unfold settle. rewrite replay_file, lines_entry. cbn [fst snd].
      now rewrite append_assoc.
    + rewrite bind_fulfil, Hchild. unfold generateTree_run, settle.
      rewrite bind_fulfil. cbn [fst snd]. rewrite <- app_comm_cons.
      rewrite replay_dir, lines_entry, replay_app, lines_app, lines_deeper.
      cbn [fst snd].
      destruct (replay (survivors pats (path_join dir file) (Dir sub)))
        as [t1 [e|]] eqn:Hsub; cbn [fst snd].
      * rewrite bind_err. reflexivity.
      * rewrite bind_ok, IH. unfold settle. cbn [fst snd].
        now rewrite <- app_comm_cons, !append_assoc.
    + rewrite bind_fulfil, Hchild. reflexivity.
    + reflexivity.
Qed.

Lemma generateTree_settles (pats : list string) (d : node) :
  forall depth dir, generateTree pats depth dir d = generateTree_run pats depth dir d.
Proof.
  induction d as [|entries IH|e|e] using node_induction; intros depth dir;
    try reflexivity.
  rewrite generateTree_unfold. unfold readdir, generateTree_run.
  rewrite !bind_fulfil.
  now rewrite (generateTree_loop_settles pats depth dir entries IH).
Qed.

(** *** The calls of a walk *)

Lemma replay_rejection_last (l : list (path * node)) (c : syscall) (e : error) :
  In (c, Some e) (fst (replay l)) ->
  snd (replay l) = Some e /\ exists t, fst (replay l) = t ++ [(c, Some e)].
Proof.
  induction l as [|[p n] l IH]; [intros []|].
  destruct n as [|sub|e0|e0].
  - rewrite replay_file. cbn [fst snd]. intros [H | H]; [discriminate|].
    destruct (IH H) as (Hr & t & Ht). split; [exact Hr|].
    exists ((Stat p, None) :: t). now rewrite Ht.
  - rewrite replay_dir. cbn [fst snd]. intros [H | [H | H]]; try discriminate.
    destruct (IH H) as (Hr & t & Ht). split; [exact Hr|].
    exists ((Stat p, None) :: (Readdir p, None) :: t). now rewrite Ht.
  - cbn [replay fst snd]. intros [H | [H | []]]; [discriminate|].
    inversion H; subst. split; [reflexivity|]. now exists [(Stat p, None)].
  - cbn [replay fst snd]. intros [H | []].
    inversion H; subst. split; [reflexivity|]. now exists [].
Qed.

Lemma replay_call_paths (l : list (path * node)) (c : syscall) (o : option error) :
  In (c, o) (fst (replay l)) -> exists n, In (call_path c, n) l.
Proof.
  induction l as [|[p n] l IH]; [intros []|].
  assert (Hhead : forall c', call_path c' = p -> exists n', In (call_path c', n') ((p, n) :: l)).
  { intros c' <-. exists n. now left. }
  assert (Htail : In (c, o) (fst (replay l)) -> exists n', In (call_path c, n') ((p, n) :: l)).
  { intros H. destruct (IH H) as [n' Hn']. exists n'. now right. }
  destruct n as [|sub|e0|e0].
  - rewrite replay_file. cbn [fst]. intros [H | H]; [|now apply Htail].
    inversion H; subst. now apply Hhead.
  - rewrite replay_dir. cbn [fst]. intros [H | [H | H]]; [| |now apply Htail];
      inversion H; subst; now apply Hhead.
  - cbn [replay fst]. intros [H | [H | []]]; inversion H; subst; now apply Hhead.
  - cbn [replay fst]. intros [H | []]; inversion H; subst; now apply Hhead.
Qed.

Lemma replay_readable (l : list (path * node)) :
  (forall p n, In (p, n) l -> rejects n = false) -> snd (replay l) = None.
Proof.
  induction l as [|[p n] l IH]; intros H; [reflexivity|].
  assert (Hn : rejects n = false) by (apply (H p); now left).
  assert (Hl : snd (replay l) = None) by (apply IH; intros p' n' Hin; apply (H p'); now right).
  destruct n; try discriminate.
  - now rewrite replay_file.
  - now rewrite replay_dir.
Qed.

Lemma settle_readable {A : Type} (l : list (path * node)) (a : A) :
  (forall p n, In (p, n) l -> rejects n = false) -> snd (settle l a) = Ok a.
Proof. intros H. unfold settle. cbn [snd]. now rewrite replay_readable. Qed.

Lemma settle_cases {A B : Type} (l : list (path * node)) (a : A) (b : B) :
  (exists e, snd (settle l a) = Err e /\ snd (settle l b) = Err e)
  \/ (snd (settle l a) = Ok a /\ snd (settle l b) = Ok b).
Proof.
  unfold settle. cbn [snd]. destruct (snd (replay l)) as [e|].
  - left. now exists e.
  - now right.
Qed.

Lemma survivors_all_excluded (pats : list string) (dir : path) (d : node) :
  (forall P, shouldIgnore P pats = true) -> survivors pats dir d = [].
Proof.
  intros Hall. destruct d as [|entries|e|e]; try reflexivity.
  induction entries as [|[file child] rest IH]; [reflexivity|].
  rewrite survivors_cons, IH. unfold excluded.
  now rewrite Hall, orb_true_r.
Qed.

(** *** The listing and the rendering over the surviving entries *)

Lemma listing_files (pats : list string) (d : node) :
  forall dir, listing pats dir d = files (survivors pats dir d).
Proof.
  induction d as [|entries IH|e|e] using node_induction; intros dir;
    try reflexivity.
  induction IH as [|[file child] rest Hchild _ IHrest]; [reflexivity|].
  rewrite survivors_cons, files_app, <- IHrest.
  cbn [listing flat_map]. f_equal.
  destruct (excluded pats dir file); [reflexivity|].
  cbn [snd] in Hchild. specialize (Hchild (path_join dir file)).
  destruct child as [|sub|e|e]; try reflexivity.
  now rewrite files_dir, <- Hchild.
Qed.

Lemma rendering_lines (pats : list string) (d : node) :
  forall depth dir, rendering pats depth dir d = lines depth dir (survivors pats dir d).
Proof.
  induction d as [|entries IH|e|e] using node_induction; intros depth dir;
    try reflexivity.
  induction IH as [|[file child] rest Hchild _ IHrest]; [reflexivity|].
  rewrite survivors_cons, lines_app, <- IHrest.
  cbn [rendering map]. rewrite concat_empty_cons. f_equal.
  destruct (excluded pats dir file); [reflexivity|].
  cbn [snd] in Hchild.
  rewrite lines_entry, lines_deeper, Nat.add_1_r. now rewrite <- Hchild.
Qed.

Lemma rendering_cons (pats : list string) (depth : nat) (dir : path)
      (file : string) (child : node) (rest : list (string * node)) :
  rendering pats depth dir (Dir ((file, child) :: rest))
  = ((if excluded pats dir file then ""
      else line depth file ++ rendering pats (S depth) (path_join dir file) child)
     ++ rendering pats depth dir (Dir rest))%string.
Proof. cbn [rendering map]. now rewrite concat_empty_cons. Qed.

(** *** Paths are told apart by their relative form *)

Lemma append_inv_head (s a b : string) :
  (s ++ a)%string = (s ++ b)%string -> a = b.
Proof. induction s as [|c s IH]; simpl; intros H; [exact H | injection H; auto]. Qed.

Lemma name_cut (x y r1 r2 : string) :
  no_sep x = true -> no_sep y = true ->
  (r1 = "" \/ exists r, r1 = String "/" r)%string ->
  (r2 = "" \/ exists r, r2 = String "/" r)%string ->
  (x ++ r1)%string = (y ++ r2)%string -> x = y /\ r1 = r2.
Proof.
  revert y. induction x as [|c x IH]; intros y Hx Hy H1 H2 Heq.
  - destruct y as [|c' y]; [now split|]. exfalso. simpl in Heq, Hy.
    apply andb_prop in Hy as [Hc _]. apply negb_true_iff in Hc.
    destruct H1 as [-> | [r ->]]; [discriminate|].
    injection Heq as <- _. discriminate.
  - simpl in Hx. apply andb_prop in Hx as [Hc Hx]. apply negb_true_iff in Hc.
    destruct y as [|c' y].
    + exfalso. simpl in Heq.
      destruct H2 as [-> | [r ->]]; [discriminate|].
      injection Heq as -> _. discriminate.
    + simpl in Heq, Hy. apply andb_prop in Hy as [_ Hy].
      injection Heq as -> Heq.
      destruct (IH y Hx Hy H1 H2 Heq) as [-> ->]. now split.
Qed.

Lemma concat_sep_cons (x : string) (xs : list string) :
  String.concat sep (x :: xs)
  = (x ++ match xs with
          | [] => ""
          | _ :: _ => sep ++ String.concat sep xs
          end)%string.
Proof. destruct xs; simpl; [now rewrite append_nil_r | reflexivity]. Qed.

Lemma concat_sep_inj (p1 : path) :
  forall p2 : path,
    p1 <> [] -> p2 <> [] ->
    Forall (fun s => no_sep s = true) p1 ->
    Forall (fun s => no_sep s = true) p2 ->
    String.concat sep p1 = String.concat sep p2 -> p1 = p2.
Proof.
  induction p1 as [|x xs IH]; intros p2 Hne1 Hne2 H1 H2 Heq; [congruence|].
  destruct p2 as [|y ys]; [congruence|].
  rewrite !concat_sep_cons in Heq.
  inversion H1 as [|? ? Hx Hxs]; inversion H2 as [|? ? Hy Hys]; subst.
  apply name_cut in Heq as [-> Hrest]; try assumption.
  - f_equal. destruct xs as [|x' xs], ys as [|y' ys]; try discriminate;
      [reflexivity|].
    apply IH; try assumption; try discriminate.
    unfold sep in Hrest. simpl in Hrest. now injection Hrest.
  - destruct xs; [now left | right; unfold sep; simpl; eauto].
  - destruct ys; [now left | right; unfold sep; simpl; eauto].
Qed.

Lemma path_relative_below (dir : path) :
  exists pre, forall q, q <> [] ->
    path_relative (dir ++ q) = (pre ++ String.concat sep q)%string.
Proof.
  unfold path_relative. induction dir as [|x dir [pre IH]].
  - exists ""%string. reflexivity.
  - exists (x ++ sep ++ pre)%string. intros q Hq.
    rewrite <- app_comm_cons, concat_sep_cons, (IH q Hq).
    destruct (dir ++ q) eqn:Hdq.
    + apply app_eq_nil in Hdq as [_ ->]. congruence.
    + now rewrite !append_assoc.
Qed.

Lemma distinct_cons (x : string) (names : list string) :
  distinct (x :: names) = true -> ~ In x names /\ distinct names = true.
Proof.
  cbn [distinct]. intros H. apply andb_prop in H as [Hx Hd]. split; [|exact Hd].
  intros Hin. apply negb_true_iff in Hx.
  assert (Hex : existsb (String.eqb x) names = true).
  { apply existsb_exists. exists x. split; [exact Hin | apply String.eqb_refl]. }
  congruence.
Qed.

Lemma well_named_entry (entries : list (string * node)) (file : string) (child : node) :
  well_named (Dir entries) = true -> In (file, child) entries ->
  no_sep file = true /\ well_named child = true.
Proof.
  cbn [well_named]. intros H Hin. apply andb_prop in H as [_ H].
  rewrite forallb_forall in H. specialize (H _ Hin). now apply andb_prop in H.
Qed.

Lemma at_path_names (d : node) (q : path) (n : node) :
  at_path d q n -> well_named d = true ->
  Forall (fun s => no_sep s = true) q.
Proof.
  induction 1 as [entries file child Hin | entries file child q n Hin _ IH];
    intros Hwn; destruct (well_named_entry _ _ _ Hwn Hin) as [Hfile Hchild].
  - now repeat constructor.
  - constructor; [exact Hfile | now apply IH].
Qed.

Lemma at_path_head (entries : list (string * node)) (q : path) (n : node) :
  at_path (Dir entries) q n ->
  exists file q', q = file :: q' /\ In file (map fst entries).
Proof.
  intros H.
  inversion H as [es file child Hin | es file child q' n' Hin _]; subst.
  - exists file, []. split; [reflexivity|]. now apply (in_map fst) in Hin.
  - exists file, q'. split; [reflexivity|]. now apply (in_map fst) in Hin.
Qed.

Lemma survivors_NoDup (pats : list string) (d : node) :
  forall dir, well_named d = true -> NoDup (map fst (survivors pats dir d)).
Proof.
  induction d as [|entries IH|e|e] using node_induction; intros dir Hwn;
    try constructor.
  induction IH as [|[file child] rest Hchild _ IHrest]; [constructor|].
  assert (Hrest : well_named (Dir rest) = true).
  { cbn [well_named map forallb] in *.
    apply andb_prop in Hwn as [Hd Hf]. apply distinct_cons in Hd as [_ Hd].
    apply andb_prop in Hf as [_ Hf]. now rewrite Hd, Hf. }
  assert (Hfresh : ~ In file (map fst rest)).
  { cbn [well_named map] in Hwn. apply andb_prop in Hwn as [Hd _].
    now apply distinct_cons in Hd. }
  assert (Hwc : well_named child = true).
  { apply (well_named_entry _ file child Hwn). now left. }
  rewrite survivors_cons, map_app. apply NoDup_app.
  - destruct (excluded pats dir file); [constructor|].
    cbn [map fst]. constructor; [|now apply Hchild].
    intros Hin. apply in_map_iff in Hin as ([p n] & Hp & Hin). cbn [fst] in Hp. subst p.
    apply survivors_longer in Hin. lia.
  - now apply IHrest.
  - intros p Hp Hp'.
    apply in_map_iff in Hp' as ([p' n'] & Heq & Hin'). cbn [fst] in Heq. subst p'.
    apply survivors_at in Hin' as (q' & -> & Hat' & _).
    apply at_path_head in Hat' as (file' & q'' & -> & Hfile').
    assert (Hshape : exists r, dir ++ file' :: q'' = dir ++ file :: r).
    { destruct (excluded pats dir file); [destruct Hp|].
      cbn [map fst] in Hp. destruct Hp as [Hp | Hp].
      - exists []. now rewrite <- Hp.
      - apply in_map_iff in Hp as ([p n] & Heq & Hin). cbn [fst] in Heq. subst p.
        apply survivors_at in Hin as (q & Hq & _). exists q. rewrite Hq.
        unfold path_join. now rewrite <- app_assoc. }
    destruct Hshape as [r Hr]. apply app_inv_head in Hr. congruence.
Qed.

Lemma files_NoDup (pats : list string) (dir : path) (d : node) :
  well_named d = true -> NoDup (files (survivors pats dir d)).
Proof.
  intros Hwn. unfold files.
  destruct (path_relative_below dir) as [pre Hpre].
  apply NoDup_map_NoDup_ForallPairs.
  - intros [p1 n1] [p2 n2] H1 H2 Heq. cbn [fst] in Heq.
    apply filter_In in H1 as [H1 Hf1]. apply filter_In in H2 as [H2 Hf2].
    cbn [snd] in Hf1, Hf2.
    destruct n1; try discriminate. destruct n2; try discriminate.
    apply survivors_at in H1 as (q1 & -> & Hat1 & _).
    apply survivors_at in H2 as (q2 & -> & Hat2 & _).
    rewrite !Hpre in Heq by (eapply at_path_nonempty; eassumption).
    apply append_inv_head in Heq.
    apply concat_sep_inj in Heq;
      try (eapply at_path_nonempty; eassumption);
      try (eapply at_path_names; eassumption).
    now subst.
  - apply NoDup_filter. apply NoDup_map_inv with (f := fst).
    now apply survivors_NoDup.
Qed.

(** *** Reading a run *)

Lemma listFiles_run_dir (pats : list string) (dir : path) (entries : list (string * node)) :
  listFiles_run pats dir (Dir entries)
  = ((Readdir dir, None) :: fst (replay (survivors pats dir (Dir entries))),
     match snd (replay (survivors pats dir (Dir entries))) with
     | Some e => Err e
     | None => Ok (files (survivors pats dir (Dir entries)))
     end).
Proof. unfold listFiles_run. now rewrite bind_fulfil. Qed.

Lemma generateTree_run_dir (pats : list string) (depth : nat) (dir : path)
      (entries : list (string * node)) :
  generateTree_run pats depth dir (Dir entries)
  = ((Readdir dir, None) :: fst (replay (survivors pats dir (Dir entries))),
     match snd (replay (survivors pats dir (Dir entries))) with
     | Some e => Err e
     | None => Ok (lines depth dir (survivors pats dir (Dir entries)))
     end).
Proof. unfold generateTree_run. now rewrite bind_fulfil. Qed.

Lemma same_calls (pats : list string) (depth : nat) (dir : path) (d : node) :
  fst (listFiles pats dir d) = fst (generateTree pats depth dir d).
Proof.
  rewrite listFiles_settles, generateTree_settles.
  now destruct d.
Qed.

Lemma listFiles_calls (pats : list string) (dir : path) (d : node)
      (c : syscall) (o : option error) :
  In (c, o) (fst (listFiles pats dir d)) ->
  call_path c = dir \/ exists n, In (call_path c, n) (survivors pats dir d).
Proof.
  rewrite listFiles_settles. destruct d as [|entries|e|e];
    try (intros [H | []]; inversion H; now left).
  rewrite listFiles_run_dir. cbn [fst]. intros [H | H].
  - inversion H. now left.
  - right. now apply replay_call_paths in H.
Qed.

Lemma listFiles_ok (pats : list string) (dir : path) (d : node) (l : list string) :
  snd (listFiles pats dir d) = Ok l -> l = files (survivors pats dir d).
Proof.
  rewrite listFiles_settles. destruct d as [|entries|e|e]; try discriminate.
  rewrite listFiles_run_dir. cbn [snd].
  destruct (snd (replay _)); [discriminate | congruence].
Qed.

Lemma generateTree_ok (pats : list string) (depth : nat) (dir : path) (d : node)
      (t : string) :
  snd (generateTree pats depth dir d) = Ok t ->
  t = lines depth dir (survivors pats dir d).
Proof.
  rewrite generateTree_settles. destruct d as [|entries|e|e]; try discriminate.
  rewrite generateTree_run_dir. cbn [snd].
  destruct (snd (replay _)); [discriminate | congruence].
Qed.

Lemma kept_excluded (pats : list string) (dir q : path) (file : string) (r : path) :
  excluded pats (dir ++ q) file = true -> kept pats dir ((q ++ [file]) ++ r) = false.
Proof.
  intros Hex. rewrite !kept_app. cbn [kept]. rewrite Hex.
  now rewrite andb_false_r.
Qed.

(** Nothing survives at or below an entry that a walk skips, and no
    call is made there. *)
Lemma skipped_untouched (pats : list string) (depth : nat) (dir : path) (d : node)
      (q : path) (file : string) :
  excluded pats (dir ++ q) file = true ->
  (forall c o,
      In (c, o) (fst (listFiles pats dir d))
      \/ In (c, o) (fst (generateTree pats depth dir d)) ->
      forall r, call_path c <> (dir ++ q ++ [file]) ++ r)
  /\ (forall r n, ~ In ((dir ++ q ++ [file]) ++ r, n) (survivors pats dir d)).
Proof.
  intros Hex.
  assert (Hnone : forall r n, ~ In ((dir ++ q ++ [file]) ++ r, n) (survivors pats dir d)).
  { intros r n Hin. apply survivors_at in Hin as (q' & Hq' & _ & Hkept).
    rewrite <- app_assoc in Hq'. apply app_inv_head in Hq'. subst q'.
    now rewrite kept_excluded in Hkept. }
  split; [|exact Hnone].
  intros c o Hin r Hc.
  assert (Hin' : In (c, o) (fst (listFiles pats dir d))).
  { destruct Hin as [H | H]; [exact H | now rewrite (same_calls pats depth)]. }
  apply listFiles_calls in Hin' as [Hdir | [n Hn]].
  - rewrite Hc in Hdir. apply (f_equal (@length string)) in Hdir.
    rewrite !length_app in Hdir. cbn [length] in Hdir. lia.
  - rewrite Hc in Hn. now apply Hnone in Hn.
Qed.

(** *** More or fewer patterns *)

Lemma replay_ok_readable (l : list (path * node)) :
  snd (replay l) = None -> forall p n, In (p, n) l -> rejects n = false.
Proof.
  induction l as [|[p0 n0] l IH]; intros Hr p n Hin; [destruct Hin|].
  destruct n0 as [|sub|e|e]; try discriminate.
  - rewrite replay_file in Hr. cbn [snd] in Hr.
    destruct Hin as [H | H]; [now inversion H | now apply (IH Hr p)].
  - rewrite replay_dir in Hr. cbn [snd] in Hr.
    destruct Hin as [H | H]; [now inversion H | now apply (IH Hr p)].
Qed.

Lemma shouldIgnore_incl (P : string) (pats pats' : list string) :
  incl pats pats' -> shouldIgnore P pats = true -> shouldIgnore P pats' = true.
Proof.
  unfold shouldIgnore. intros Hincl H.
  apply existsb_exists in H as (pattern & Hin & H).
  apply existsb_exists. exists pattern. split; [now apply Hincl | exact H].
Qed.

Lemma kept_incl (pats pats' : list string) (q : path) :
  incl pats pats' ->
  forall dir, kept pats' dir q = true -> kept pats dir q = true.
Proof.
  intros Hincl. induction q as [|file q IH]; intros dir H; [reflexivity|].
  cbn [kept] in *. apply andb_prop in H as [Hex H].
  rewrite (IH _ H), andb_true_r.
  apply negb_true_iff in Hex. apply negb_true_iff.
  unfold excluded in *. apply orb_false_elim in Hex as [Hhid Hign].
  rewrite Hhid. cbn [orb].
  destruct (shouldIgnore _ pats) eqn:Hp; [|reflexivity].
  apply (shouldIgnore_incl _ _ _ Hincl) in Hp. congruence.
Qed.

Lemma survivors_incl (pats pats' : list string) (dir : path) (d : node)
      (p : path) (n : node) :
  incl pats pats' ->
  In (p, n) (survivors pats' dir d) -> In (p, n) (survivors pats dir d).
Proof.
  intros Hincl H. apply survivors_at in H as (q & -> & Hat & Hkept).
  apply survivors_at. exists q. repeat split; [exact Hat|].
  now apply (kept_incl pats pats').
Qed.

(** *** Every call once *)

Lemma replay_NoDup (l : list (path * node)) :
  NoDup (map fst l) -> NoDup (map fst (fst (replay l))).
Proof.
  induction l as [|[p n] l IH]; intros Hnd; [constructor|].
  cbn [map fst] in Hnd. apply NoDup_cons_iff in Hnd as [Hp Hnd].
  assert (Hfresh : forall c, call_path c = p -> ~ In c (map fst (fst (replay l)))).
  { intros c Hc Hin. apply in_map_iff in Hin as ([c' o] & Hc' & Hin).
    cbn [fst] in Hc'. subst c'.
    apply replay_call_paths in Hin as [n' Hn'].
    apply Hp. rewrite <- Hc. now apply (in_map fst) in Hn'. }
  destruct n as [|sub|e|e].
  - rewrite replay_file. cbn [fst map].
    constructor; [now apply Hfresh | now apply IH].
  - rewrite replay_dir. cbn [fst map]. constructor.
    + intros [H | H]; [discriminate | now apply (Hfresh (Stat p))].
    + constructor; [now apply Hfresh | now apply IH].
  - cbn [replay fst map]. constructor; [|now repeat constructor].
    intros [H | []]. discriminate.
  - cbn [replay fst map]. now repeat constructor.
Qed.

(** *** The lines of the ignore file *)

Lemma retained_empty (ls : list string) :
  In ""%string (retained ls) -> In "/"%string ls.
Proof.
  induction ls as [|l ls IH]; intros H; [destruct H|].
  destruct l as [|c l]; [right; now apply IH|].
  cbn [retained] in H.
  destruct (Ascii.eqb c "#") eqn:Hhash; [right; now apply IH|].
  destruct (Ascii.eqb c "/") eqn:Hslash.
  - destruct H as [H | H]; [|right; now apply IH].
    apply Ascii.eqb_eq in Hslash. subst. now left.
  - destruct H as [H | H]; [discriminate | right; now apply IH].
Qed.

Lemma retained_verbatim (ls : list string) (l : string) :
  In l ls -> l <> ""%string ->
  JS.startsWith l "#" = false -> JS.startsWith l "/" = false ->
  In l (retained ls).
Proof.
  intros Hin Hne Hhash Hslash.
  induction ls as [|l0 ls IH]; [destruct Hin|].
  destruct Hin as [-> | Hin].
  - destruct l as [|c l]; [congruence|].
    rewrite startsWith_char in Hhash, Hslash.
    cbn [retained]. rewrite Hhash, Hslash. now left.
  - specialize (IH Hin). destruct l0 as [|c0 l0]; [exact IH|].
    cbn [retained].
    destruct (Ascii.eqb c0 "#"); [exact IH|].
    destruct (Ascii.eqb c0 "/"); now right.
Qed.

(** ** The command line, argument by argument *)

Lemma lower_idem (c : ascii) : Cli.lower (Cli.lower c) = Cli.lower c.
Proof. destruct c as [[] [] [] [] [] [] [] []]; reflexivity. Qed.

Lemma toLowerCase_idem (s : string) :
  Cli.toLowerCase (Cli.toLowerCase s) = Cli.toLowerCase s.
Proof. induction s as [|c s IH]; simpl; [reflexivity|]. now rewrite lower_idem, IH. Qed.

Lemma after_switch_other (arg : string) :
  Cli.is_switch arg = false -> Cli.after_switch arg = Cli.Switch.
Proof.
  unfold Cli.is_switch, Cli.after_switch. intros H.
  apply orb_false_elim in H as [H Hexclude].
  apply orb_false_elim in H as [H Hext].
  apply orb_false_elim in H as [Htarget Houtput].
  now rewrite Htarget, Houtput, Hext, Hexclude.
Qed.

(** The loop and the machine do the same. *)
Lemma parse_scan_upto (n : nat) :
  forall args o, length args <= n ->
    Cli.parse args o = Cli.scan Cli.Switch args o
    /\ Cli.ext_values args o = Cli.scan Cli.ExtValues args o
    /\ Cli.exclude_values args o = Cli.scan Cli.ExcludeValues args o.
Proof.
  induction n as [|n IH]; intros args o Hlen.
  - destruct args; [now repeat split | simpl in Hlen; lia].
  - destruct args as [|arg rest]; [now repeat split|].
    simpl in Hlen. assert (Hrest : length rest <= n) by lia.
    assert (Hparse : Cli.parse (arg :: rest) o = Cli.scan Cli.Switch (arg :: rest) o).
    { cbn [Cli.parse Cli.scan]. unfold Cli.after_switch.
      destruct (String.eqb arg "--target").
      { destruct rest as [|value rest']; [reflexivity|].
        cbn [Cli.scan]. apply IH. simpl in Hrest. lia. }
      destruct (String.eqb arg "--output").
      { destruct rest as [|value rest']; [reflexivity|].
        cbn [Cli.scan]. apply IH. simpl in Hrest. lia. }
      destruct (String.eqb arg "--ext").
      { change (Cli.ext_values rest o = Cli.scan Cli.ExtValues rest o).
        now apply IH. }
      destruct (String.eqb arg "--exclude").
      { change (Cli.exclude_values rest o = Cli.scan Cli.ExcludeValues rest o).
        now apply IH. }
      now apply IH. }
    split; [exact Hparse|]. split.
    + change (Cli.ext_values (arg :: rest) o)
        with (if negb (JS.startsWith arg "--")
              then Cli.ext_values rest (Cli.push_extension arg o)
              else Cli.parse (arg :: rest) o).
      cbn [Cli.scan]. destruct (negb (JS.startsWith arg "--")).
      * now apply IH.
      * exact Hparse.
    + change (Cli.exclude_values (arg :: rest) o)
        with (if negb (JS.startsWith arg "--")
              then Cli.exclude_values rest (Cli.push_exclude arg o)
              else Cli.parse (arg :: rest) o).
      cbn [Cli.scan]. destruct (negb (JS.startsWith arg "--")).
      * now apply IH.
      * exact Hparse.
Qed.

Lemma parseArgs_scan (args : list string) :
  Cli.parseArgs args = Cli.scan Cli.Switch args Cli.initial.
Proof. unfold Cli.parseArgs. now apply (parse_scan_upto (length args)). Qed.

Lemma scan_ext_values (values rest : list string) :
  forall o,
    forallb Cli.is_value values = true ->
    Cli.scan Cli.ExtValues (values ++ rest) o
    = Cli.scan Cli.ExtValues rest
        (fold_left (fun o v => Cli.push_extension v o) values o).
Proof.
  induction values as [|v values IH]; intros o H; [reflexivity|].
  cbn [forallb] in H. apply andb_prop in H as [Hv H].
  cbn [app Cli.scan fold_left]. unfold Cli.is_value in Hv. rewrite Hv.
  now apply IH.
Qed.

Lemma scan_exclude_values (values rest : list string) :
  forall o,
    forallb Cli.is_value values = true ->
    Cli.scan Cli.ExcludeValues (values ++ rest) o
    = Cli.scan Cli.ExcludeValues rest
        (fold_left (fun o v => Cli.push_exclude v o) values o).
Proof.
  induction values as [|v values IH]; intros o H; [reflexivity|].
  cbn [forallb] in H. apply andb_prop in H as [Hv H].
  cbn [app Cli.scan fold_left]. unfold Cli.is_value in Hv. rewrite Hv.
  now apply IH.
Qed.

(** On a group at the head, the machine does what the group says,
    whether it was looking for a switch or for one more value. *)
Lemma scan_group (g : Cli.group) (rest : list string) (o : Cli.options) :
  Cli.well_grouped false [g] = true ->
  Cli.scan Cli.Switch (Cli.words g ++ rest) o
  = Cli.scan (if Cli.takes_values g
              then match g with Cli.Ext _ => Cli.ExtValues | _ => Cli.ExcludeValues end
              else Cli.Switch) rest (Cli.apply o g).
Proof.
  cbn [Cli.well_grouped]. rewrite andb_true_r. intros Hg.
  destruct g as [value|value|values|values|arg]; cbn [Cli.words Cli.takes_values Cli.apply].
  - reflexivity.
  - reflexivity.
  - change (Cli.scan Cli.Switch (("--ext" :: values) ++ rest) o)
      with (Cli.scan Cli.ExtValues (values ++ rest) o).
    now apply scan_ext_values.
  - change (Cli.scan Cli.Switch (("--exclude" :: values) ++ rest) o)
      with (Cli.scan Cli.ExcludeValues (values ++ rest) o).
    now apply scan_exclude_values.
  - cbn [app Cli.scan]. apply andb_prop in Hg as [Hg _].
    apply negb_true_iff in Hg. now rewrite after_switch_other.
Qed.

Lemma well_grouped_head (after : bool) (g : Cli.group) (gs : list Cli.group) :
  Cli.well_grouped after (g :: gs) = true ->
  Cli.well_grouped false [g] = true
  /\ Cli.well_grouped (Cli.takes_values g) gs = true
  /\ (after = true -> forall arg rest, Cli.words g = arg :: rest ->
                                       JS.startsWith arg "--" = true).
Proof.
  cbn [Cli.well_grouped]. intros H. apply andb_prop in H as [Hg Hgs].
  rewrite andb_true_r. repeat split; try assumption.
  - destruct g; try exact Hg. cbn [negb orb]. rewrite andb_true_r.
    now apply andb_prop in Hg as [Hg _].
  - intros -> arg rest Hwords.
    destruct g as [value|value|values|values|other]; cbn [Cli.words] in Hwords;
      inversion Hwords; subst; try reflexivity.
    apply andb_prop in Hg as [_ Hg]. cbn [negb orb] in Hg.
    unfold Cli.is_value in Hg. now apply negb_true_iff in Hg; apply negb_false_iff in Hg.
Qed.

Lemma words_nonempty (g : Cli.group) : exists arg rest, Cli.words g = arg :: rest.
Proof. destruct g; cbn [Cli.words]; eauto. Qed.

Lemma scan_groups (gs : list Cli.group) :
  forall o,
    (Cli.well_grouped false gs = true ->
     Cli.scan Cli.Switch (flat_map Cli.words gs) o = fold_left Cli.apply gs o)
    /\ (Cli.well_grouped true gs = true ->
        Cli.scan Cli.ExtValues (flat_map Cli.words gs) o = fold_left Cli.apply gs o
        /\ Cli.scan Cli.ExcludeValues (flat_map Cli.words gs) o
           = fold_left Cli.apply gs o).
Proof.
  induction gs as [|g gs IH]; intros o; [now repeat split|].
  assert (Hswitch : forall after,
             Cli.well_grouped after (g :: gs) = true ->
             Cli.scan Cli.Switch (flat_map Cli.words (g :: gs)) o
             = fold_left Cli.apply (g :: gs) o).
  { intros after H. apply well_grouped_head in H as (Hg & Hgs & _).
    cbn [flat_map fold_left]. rewrite scan_group by exact Hg.
    destruct g; cbn [Cli.takes_values] in *; now apply IH. }
  split; [apply Hswitch|].
  intros H. pose proof (Hswitch true H) as Hs.
  apply well_grouped_head in H as (_ & _ & Hdash).
  destruct (words_nonempty g) as (arg & rest & Hwords).
  specialize (Hdash eq_refl arg rest Hwords).
  cbn [flat_map] in *. rewrite Hwords in *. cbn [app Cli.scan] in *.
  now rewrite Hdash.
Qed.

Lemma after_switch_cases (arg : string) :
  (arg = "--target"%string /\ Cli.after_switch arg = Cli.TargetValue)
  \/ (arg = "--output"%string /\ Cli.after_switch arg = Cli.OutputValue)
  \/ (arg = "--ext"%string /\ Cli.after_switch arg = Cli.ExtValues)
  \/ (arg = "--exclude"%string /\ Cli.after_switch arg = Cli.ExcludeValues)
  \/ Cli.after_switch arg = Cli.Switch.
Proof.
  unfold Cli.after_switch.
  destruct (String.eqb_spec arg "--target"); [now left|].
  destruct (String.eqb_spec arg "--output"); [now right; left|].
  destruct (String.eqb_spec arg "--ext"); [now right; right; left|].
  destruct (String.eqb_spec arg "--exclude"); [now right; right; right; left|].
  now right; right; right; right.
Qed.

(** Without [--target] among the arguments the directory stays as it
    is, and likewise for [--output] and [--ext]. *)
Lemma scan_keeps_targetDir (args : list string) :
  forall m o,
    ~ In "--target"%string args -> m <> Cli.TargetValue ->
    Cli.targetDir (Cli.scan m args o) = Cli.targetDir o.
Proof.
  induction args as [|arg rest IH]; intros m o Hin Hm; [reflexivity|].
  assert (Harg : arg <> "--target"%string) by (intros ->; apply Hin; now left).
  assert (Hrest : ~ In "--target"%string rest) by (intros H; apply Hin; now right).
  assert (Hnext : Cli.after_switch arg <> Cli.TargetValue).
  { destruct (after_switch_cases arg) as [[H _]|[[_ H]|[[_ H]|[[_ H]|H]]]];
      [contradiction| | | |]; rewrite H; discriminate. }
  cbn [Cli.scan]. destruct m; try contradiction.
  - now apply IH.
  - rewrite IH by (assumption || discriminate). reflexivity.
  - destruct (negb _); rewrite IH by (assumption || discriminate); reflexivity.
  - destruct (negb _); rewrite IH by (assumption || discriminate); reflexivity.
Qed.

Lemma scan_keeps_outputFile (args : list string) :
  forall m o,
    ~ In "--output"%string args -> m <> Cli.OutputValue ->
    Cli.outputFile (Cli.scan m args o) = Cli.outputFile o.
Proof.
  induction args as [|arg rest IH]; intros m o Hin Hm; [reflexivity|].
  assert (Harg : arg <> "--output"%string) by (intros ->; apply Hin; now left).
  assert (Hrest : ~ In "--output"%string rest) by (intros H; apply Hin; now right).
  assert (Hnext : Cli.after_switch arg <> Cli.OutputValue).
  { destruct (after_switch_cases arg) as [[_ H]|[[H _]|[[_ H]|[[_ H]|H]]]];
      [|contradiction| | |]; rewrite H; discriminate. }
  cbn [Cli.scan]. destruct m; try contradiction.
  - now apply IH.
  - rewrite IH by (assumption || discriminate). reflexivity.
  - destruct (negb _); rewrite IH by (assumption || discriminate); reflexivity.
  - destruct (negb _); rewrite IH by (assumption || discriminate); reflexivity.
Qed.

Lemma scan_keeps_targetExtensions (args : list string) :
  forall m o,
    ~ In "--ext"%string args -> m <> Cli.ExtValues ->
    Cli.targetExtensions (Cli.scan m args o) = Cli.targetExtensions o.
Proof.
  induction args as [|arg rest IH]; intros m o Hin Hm; [reflexivity|].
  assert (Harg : arg <> "--ext"%string) by (intros ->; apply Hin; now left).
  assert (Hrest : ~ In "--ext"%string rest) by (intros H; apply Hin; now right).
  assert (Hnext : Cli.after_switch arg <> Cli.ExtValues).
  { destruct (after_switch_cases arg) as [[_ H]|[[_ H]|[[H _]|[[_ H]|H]]]];
      [| |contradiction| |]; rewrite H; discriminate. }
  cbn [Cli.scan]. destruct m; try contradiction.
  - now apply IH.
  - rewrite IH by (assumption || discriminate). reflexivity.
  - rewrite IH by (assumption || discriminate). reflexivity.
  - destruct (negb _); rewrite IH by (assumption || discriminate); reflexivity.
Qed.

(** Whatever the machine holds comes from the arguments. *)
Lemma scan_from_args (ARGS args : list string) :
  forall m o,
    incl args ARGS ->
    (Cli.targetDir o = ""%string \/ In (Cli.targetDir o) ARGS)
    /\ (Cli.outputFile o = ""%string \/ In (Cli.outputFile o) ARGS)
    /\ Forall (fun e => exists v, In v ARGS /\ JS.startsWith v "--" = false
                                  /\ e = ("." ++ Cli.toLowerCase v)%string)
              (Cli.targetExtensions o)
    /\ Forall (fun p => In p ARGS /\ JS.startsWith p "--" = false)
              (Cli.excludePatterns o) ->
    (Cli.targetDir (Cli.scan m args o) = ""%string
     \/ In (Cli.targetDir (Cli.scan m args o)) ARGS)
    /\ (Cli.outputFile (Cli.scan m args o) = ""%string
        \/ In (Cli.outputFile (Cli.scan m args o)) ARGS)
    /\ Forall (fun e => exists v, In v ARGS /\ JS.startsWith v "--" = false
                                  /\ e = ("." ++ Cli.toLowerCase v)%string)
              (Cli.targetExtensions (Cli.scan m args o))
    /\ Forall (fun p => In p ARGS /\ JS.startsWith p "--" = false)
              (Cli.excludePatterns (Cli.scan m args o)).
Proof.
  induction args as [|arg rest IH]; intros m o Hincl Ho; [exact Ho|].
  assert (Harg : In arg ARGS) by (apply Hincl; now left).
  assert (Hrest : incl rest ARGS) by (intros a Ha; apply Hincl; now right).
  destruct Ho as (Ht & Hout & Hext & Hexcl).
  cbn [Cli.scan]. destruct m.
  - apply IH; [exact Hrest | now repeat split].
  - apply IH; [exact Hrest|]. cbn. repeat split; auto.
  - apply IH; [exact Hrest|]. cbn. repeat split; auto.
  - destruct (JS.startsWith arg "--") eqn:Hdash; cbn [negb].
    + apply IH; [exact Hrest | now repeat split].
    + apply IH; [exact Hrest|]. cbn. repeat split; auto.
      apply Forall_app. split; [exact Hext|]. constructor; [|constructor].
      now exists arg.
  - destruct (JS.startsWith arg "--") eqn:Hdash; cbn [negb].
    + apply IH; [exact Hrest | now repeat split].
    + apply IH; [exact Hrest|]. cbn. repeat split; auto.
      apply Forall_app. split; [exact Hexcl|]. now repeat constructor.
Qed.

(** The extensions that groups of arguments leave. *)
Lemma apply_extensions (gs : list Cli.group) :
  forall o e,
    In e (Cli.targetExtensions (fold_left Cli.apply gs o)) <->
    In e (Cli.targetExtensions o)
    \/ exists values v, In (Cli.Ext values) gs /\ In v values
                        /\ e = ("." ++ Cli.toLowerCase v)%string.
Proof.
  assert (Hpush : forall values o e,
             In e (Cli.targetExtensions
                     (fold_left (fun o v => Cli.push_extension v o) values o)) <->
             In e (Cli.targetExtensions o)
             \/ exists v, In v values /\ e = ("." ++ Cli.toLowerCase v)%string).
  { induction values as [|v values IHv]; intros o e; cbn [fold_left].
    - split; [now left | intros [H | (v & [] & _)]; exact H].
    - rewrite IHv. cbn [Cli.push_extension Cli.targetExtensions]. rewrite in_app_iff.
      split.
      + intros [[H | [<- | []]] | (v' & Hv' & ->)]; [now left | right | right].
        * exists v. split; [now left | reflexivity].
        * exists v'. split; [now right | reflexivity].
      + intros [H | (v' & [<- | Hv'] & ->)].
        * now left; left.
        * left; right. now left.
        * right. now exists v'. }
  assert (Hexcl : forall values o,
             Cli.targetExtensions
               (fold_left (fun o v => Cli.push_exclude v o) values o)
             = Cli.targetExtensions o).
  { induction values as [|v values IHv]; intros o; cbn [fold_left];
      [reflexivity | now rewrite IHv]. }
  induction gs as [|g gs IH]; intros o e; cbn [fold_left].
  - split; [now left | intros [H | (values & v & [] & _)]; exact H].
  - rewrite IH. destruct g as [value|value|values|values|arg]; cbn [Cli.apply].
    + cbn [Cli.set_targetDir Cli.targetExtensions]. split.
      * intros [H | (vs & v & Hin & Hv)]; [now left|]. right. exists vs, v.
        split; [now right | exact Hv].
      * intros [H | (vs & v & [Hin | Hin] & Hv)]; [now left | discriminate|].
        right. now exists vs, v.
    + cbn [Cli.set_outputFile Cli.targetExtensions]. split.
      * intros [H | (vs & v & Hin & Hv)]; [now left|]. right. exists vs, v.
        split; [now right | exact Hv].
      * intros [H | (vs & v & [Hin | Hin] & Hv)]; [now left | discriminate|].
        right. now exists vs, v.
    + rewrite Hpush. split.
      * intros [[H | (v & Hv & ->)] | (vs & v & Hin & Hv)].
        -- now left.
        -- right. exists values, v. split; [now left | now split].
        -- right. exists vs, v. split; [now right | exact Hv].
      * intros [H | (vs & v & [Hin | Hin] & Hv & ->)].
        -- now left; left.
        -- inversion Hin; subst. left; right. now exists v.
        -- right. now exists vs, v.
    + rewrite Hexcl. split.
      * intros [H | (vs & v & Hin & Hv)]; [now left|]. right. exists vs, v.
        split; [now right | exact Hv].
      * intros [H | (vs & v & [Hin | Hin] & Hv)]; [now left | discriminate|].
        right. now exists vs, v.
    + split.
      * intros [H | (vs & v & Hin & Hv)]; [now left|]. right. exists vs, v.
        split; [now right | exact Hv].
      * intros [H | (vs & v & [Hin | Hin] & Hv)]; [now left | discriminate|].
        right. now exists vs, v.
Qed.

(** ** The dump, write by write *)

Lemma io_bind_ok {A B : Type} (m : IO A) (k : A -> IO B) (p p' : process) (a : A) :
  m p = (p', Ok a) -> io_bind m k p = k a p'.
Proof. unfold io_bind. now intros ->. Qed.

Lemma io_bind_err {A B : Type} (m : IO A) (k : A -> IO B) (p p' : process) (e : error) :
  m p = (p', Err e) -> io_bind m k p = (p', Err e).
Proof. unfold io_bind. now intros ->. Qed.

Lemma write_ok (w : world) (text : string -> string) (p : process) :
  write_error w (writes p) = None ->
  write w text p
  = ({| console := console p; calls := calls p;
        output := text (output p); writes := S (writes p) |}, Ok tt).
Proof. unfold write. now intros ->. Qed.

Lemma forEach_app {A : Type} (l1 l2 : list A) (body : A -> IO unit) (p : process) :
  forEach (l1 ++ l2) body p
  = match forEach l1 body p with
    | (p', Ok _) => forEach l2 body p'
    | (p', Err e) => (p', Err e)
    end.
Proof.
  revert p. induction l1 as [|x l1 IH]; intros p; [reflexivity|].
  cbn [app forEach]. unfold io_bind.
  destruct (body x p) as [p' [[]|e]]; [apply IH | reflexivity].
Qed.

(** The first loop of [main]: one line for each listed path. *)
Lemma forEach_lines (w : world) (allFiles : list string) :
  (forall n, write_error w n = None) ->
  forall p,
    forEach allFiles (fun file => appendFile w (file ++ nl)) p
    = ({| console := console p; calls := calls p;
          output := (output p ++ find_output allFiles)%string;
          writes := writes p + length allFiles |}, Ok tt).
Proof.
  intros Hw. unfold find_output.
  induction allFiles as [|file rest IH]; intros p.
  - cbn. rewrite append_nil_r, Nat.add_0_r. now destruct p.
  - cbn [forEach]. unfold appendFile at 1.
    rewrite (io_bind_ok _ _ _ _ _ (write_ok w _ p (Hw _))), IH.
    cbn [console calls output writes map length].
    rewrite concat_empty_cons, !append_assoc. do 2 f_equal. lia.
Qed.

(** The body of the second loop of [main], named. *)
Lemma dump_loop_block (w : world) (o : Cli.options) (file fileContent : string)
      (p : process) :
  (forall n, write_error w n = None) ->
  is_target o file = true ->
  readFile w (join (Cli.targetDir o) file) = Ok fileContent ->
  (_ <- appendFile w ("```file:" ++ file ++ nl) ;;
   fileContent <- await_read (readFile w (join (Cli.targetDir o) file)) ;;
   _ <- appendFile w (fileContent ++ nl ++ "```" ++ nl ++ nl) ;;
   console_log ("Processed: " ++ file))%io%string p
  = ({| console := console p ++ [Log ("Processed: " ++ file)];
        calls := calls p;
        output := (output p ++ source_block file fileContent)%string;
        writes := S (S (writes p)) |}, Ok tt).
Proof.
  intros Hw Htarget Hread. unfold appendFile.
  rewrite (io_bind_ok _ _ _ _ _ (write_ok w _ p (Hw _))).
  unfold await_read at 1. rewrite Hread.
  unfold io_bind at 1.
  rewrite (io_bind_ok _ _ _ _ _ (write_ok w _ _ (Hw _))).
  unfold console_log, source_block. cbn [console calls output writes].
  now rewrite !append_assoc.
Qed.

Lemma dump_loop_unreadable (w : world) (o : Cli.options) (file : string)
      (e : error) (p : process) :
  (forall n, write_error w n = None) ->
  readFile w (join (Cli.targetDir o) file) = Err e ->
  (_ <- appendFile w ("```file:" ++ file ++ nl) ;;
   fileContent <- await_read (readFile w (join (Cli.targetDir o) file)) ;;
   _ <- appendFile w (fileContent ++ nl ++ "```" ++ nl ++ nl) ;;
   console_log ("Processed: " ++ file))%io%string p
  = ({| console := console p; calls := calls p;
        output := (output p ++ "```file:" ++ file ++ nl)%string;
        writes := S (writes p) |}, Err e).
Proof.
  intros Hw Hread. unfold appendFile.
  rewrite (io_bind_ok _ _ _ _ _ (write_ok w _ p (Hw _))).
  unfold await_read. rewrite Hread. reflexivity.
Qed.

Lemma dump_file_ignored (w : world) (o : Cli.options) (file : string) (p : process) :
  is_target o file = false ->
  dump_file w o file p
  = ({| console := console p ++ [Log ("Ignored (not target extension): " ++ file)];
        calls := calls p; output := output p; writes := writes p |}, Ok tt).
Proof.
  unfold dump_file, is_target. intros ->. reflexivity.
Qed.

Lemma dump_file_block (w : world) (o : Cli.options) (file fileContent : string)
      (p : process) :
  (forall n, write_error w n = None) ->
  is_target o file = true ->
  readFile w (join (Cli.targetDir o) file) = Ok fileContent ->
  dump_file w o file p
  = ({| console := console p ++ [Log ("Processed: " ++ file)];
        calls := calls p;
        output := (output p ++ source_block file fileContent)%string;
        writes := S (S (writes p)) |}, Ok tt).
Proof.
  intros Hw Htarget Hread. unfold dump_file.
  unfold is_target in Htarget. rewrite Htarget. cbn [negb].
  now apply dump_loop_block.
Qed.

Lemma dump_file_unreadable (w : world) (o : Cli.options) (file : string)
      (e : error) (p : process) :
  (forall n, write_error w n = None) ->
  is_target o file = true ->
  readFile w (join (Cli.targetDir o) file) = Err e ->
  dump_file w o file p
  = ({| console := console p; calls := calls p;
        output := (output p ++ "```file:" ++ file ++ nl)%string;
        writes := S (writes p) |}, Err e).
Proof.
  intros Hw Htarget Hread. unfold dump_file.
  unfold is_target in Htarget. rewrite Htarget. cbn [negb].
  now apply dump_loop_unreadable.
Qed.

Lemma source_code_cons (w : world) (o : Cli.options) (file : string)
      (rest : list string) :
  source_code w o (file :: rest)
  = ((if is_target o file
      then source_block file (text_of w (join (Cli.targetDir o) file))
      else "") ++ source_code w o rest)%string.
Proof.
  unfold source_code. cbn [filter].
  destruct (is_target o file); [|reflexivity].
  cbn [map]. now rewrite concat_empty_cons.
Qed.

(** The second loop of [main] when every file it reads can be read. *)
Lemma forEach_blocks (w : world) (o : Cli.options) (allFiles : list string) :
  (forall n, write_error w n = None) ->
  (forall file, In file allFiles -> is_target o file = true ->
                exists fileContent,
                  readFile w (join (Cli.targetDir o) file) = Ok fileContent) ->
  forall p,
    forEach allFiles (dump_file w o) p
    = ({| console := console p ++ report o allFiles;
          calls := calls p;
          output := (output p ++ source_code w o allFiles)%string;
          writes := writes p + 2 * length (filter (is_target o) allFiles) |},
       Ok tt).
Proof.
  intros Hw. induction allFiles as [|file rest IH]; intros Hread p.
  - cbn. rewrite append_nil_r, app_nil_r, Nat.add_0_r. now destruct p.
  - assert (Hrest : forall f, In f rest -> is_target o f = true ->
                      exists c, readFile w (join (Cli.targetDir o) f) = Ok c).
    { intros f Hf. apply Hread. now right. }
    cbn [forEach]. rewrite source_code_cons. unfold report. cbn [map filter].
    fold (report o rest).
    destruct (is_target o file) eqn:Htarget.
    + destruct (Hread file (or_introl eq_refl) Htarget) as [c Hc].
      rewrite (io_bind_ok _ _ _ _ _ (dump_file_block w o file c p Hw Htarget Hc)).
      rewrite (IH Hrest). cbn [console calls output writes length].
      unfold text_of. rewrite Hc.
      rewrite <- app_assoc, append_assoc. cbn [app]. do 2 f_equal. lia.
    + rewrite (io_bind_ok _ _ _ _ _ (dump_file_ignored w o file p Htarget)).
      rewrite (IH Hrest). cbn [console calls output writes].
      now rewrite <- app_assoc.
Qed.

Lemma truthy_nonempty (s : string) : s <> ""%string -> JS.truthy s = true.
Proof. destruct s; [congruence | reflexivity]. Qed.

(** When the listing settles, so does the tree, and they are the
    listing and the rendering of the specification. *)
Lemma walk_ok_tree (pats : list string) (depth : nat) (dir : path) (d : node)
      (l : list string) :
  snd (listFiles pats dir d) = Ok l ->
  l = listing pats dir d
  /\ snd (generateTree pats depth dir d) = Ok (rendering pats depth dir d).
Proof.
  rewrite listFiles_settles, generateTree_settles.
  destruct d as [|entries|e|e]; try discriminate.
  rewrite listFiles_run_dir, generateTree_run_dir, listing_files, rendering_lines.
  cbn [snd]. destruct (snd (replay _)); [discriminate|].
  intros H. split; [congruence | reflexivity].
Qed.

(** [main] up to its second loop, when the walk settles. *)
Lemma dump_walked (w : world) (o : Cli.options) (allFiles : list string) :
  (forall n, write_error w n = None) ->
  snd (listFiles (patterns_of w o) [] (tree_at w (Cli.targetDir o))) = Ok allFiles ->
  dump w o (start w)
  = forEach allFiles (dump_file w o)
      {| console := [];
         calls := fst (listFiles (patterns_of w o) [] (tree_at w (Cli.targetDir o)))
                  ++ fst (generateTree (patterns_of w o) 0 []
                            (tree_at w (Cli.targetDir o)));
         output :=
           sections allFiles
             (rendering (patterns_of w o) 0 [] (tree_at w (Cli.targetDir o)));
         writes := 5 + length allFiles |}.
Proof.
  intros Hw Hwalk.
  destruct (walk_ok_tree _ 0 _ _ _ Hwalk) as [_ Htree].
  unfold dump. fold (patterns_of w o) (dump_file w o).
  change (readGitignore (gitignore_at w (Cli.targetDir o)) ++ Cli.excludePatterns o)
    with (patterns_of w o).
  unfold writeFile, appendFile.
  rewrite (io_bind_ok _ _ _ _ _ (write_ok w _ _ (Hw _))).
  rewrite (io_bind_ok _ _ _ _ _ (write_ok w _ _ (Hw _))).
  unfold await at 1. unfold io_bind at 1. rewrite Hwalk.
  fold (appendFile w).
  rewrite (io_bind_ok _ _ _ _ _ (forEach_lines w allFiles Hw _)).
  unfold appendFile.
  rewrite (io_bind_ok _ _ _ _ _ (write_ok w _ _ (Hw _))).
  unfold await at 1. unfold io_bind at 1. rewrite Htree.
  rewrite (io_bind_ok _ _ _ _ _ (write_ok w _ _ (Hw _))).
  rewrite (io_bind_ok _ _ _ _ _ (write_ok w _ _ (Hw _))).
  cbn [console calls output writes start app].
  unfold sections. f_equal. f_equal.
  now rewrite !append_assoc.
Qed.

(** ** The ignore rules *)

(** C1.  [shouldIgnore P S] is true exactly when some pattern of [S]
    equals [P], or is a literal prefix of [P], or compiles as a regular
    expression that matches at some index of [P].  A pattern that does
    not compile is never an error: it contributes its prefix check
    (which covers equality) and nothing else. *)
Theorem shouldIgnore_iff (P : string) (S : list string) :
  (shouldIgnore P S = true <->
   exists pattern, In pattern S /\
     (P = pattern
      \/ (exists rest, P = (pattern ++ rest)%string)
      \/ (exists r, RegExp_new pattern = Some r /\
            exists i, i <= String.length P /\ matcher r P i = true)))
  /\ (forall pattern,
        shouldIgnore P [pattern]
        = (JS.startsWith P pattern
           || match RegExp_new pattern with
              | Some r => RegExp_test r P
              | None => false
              end)).
Proof.
  split.
  - unfold shouldIgnore. rewrite existsb_exists.
    split; intros (pattern & Hin & H); exists pattern; (split; [exact Hin|]).
    + destruct (String.eqb P pattern) eqn:Heq.
      { left. now apply String.eqb_eq. }
      destruct (JS.startsWith P pattern) eqn:Hpre.
      { right; left. now apply startsWith_iff. }
      cbn [orb] in H. right; right.
      destruct (RegExp_new pattern) as [r|]; [|discriminate].
      exists r. split; [reflexivity|]. now apply RegExp_test_iff.
    + destruct H as [-> | [Hpre | (r & Hr & Hm)]].
      * now rewrite String.eqb_refl.
      * apply startsWith_iff in Hpre. now rewrite Hpre, orb_true_r.
      * rewrite Hr. apply RegExp_test_iff in Hm. rewrite Hm.
        now destruct (_ || _).
  - intros pattern. unfold shouldIgnore. cbn [existsb]. rewrite orb_false_r.
    destruct (String.eqb_spec P pattern) as [->|Hne].
    + now rewrite startsWith_self.
    + cbn [orb]. now destruct (JS.startsWith P pattern).
Qed.

(** C8.  The order of the patterns does not change the answer of
    [shouldIgnore]. *)
Theorem shouldIgnore_permutation (P : string) (S S' : list string) :
  Permutation S S' -> shouldIgnore P S = shouldIgnore P S'.
Proof.
  unfold shouldIgnore.
  induction 1 as [|x l l' _ IH|x y l|l l' l'' _ IH1 _ IH2]; cbn [existsb].
  - reflexivity.
  - now rewrite IH.
  - rewrite !orb_assoc. f_equal. apply orb_comm.
  - now rewrite IH1.
Qed.

(** C4.  The pattern set read from an ignore file whose lines end in a
    line feed or in a carriage return and a line feed: empty lines and
    lines that start with [#] are dropped, one leading [/] is removed,
    and the caller's patterns follow unchanged and in order.  Without
    an ignore file the set is the caller's patterns. *)
Theorem ignorePatterns_lines
        (ls : list (string * eol)) (final : string) (excludePatterns : list string) :
  Forall well_terminated ls -> no_LF final = true ->
  ignorePatterns (Some (unlines ls final)) excludePatterns
  = retained (map fst ls ++ [final]) ++ excludePatterns
  /\ ignorePatterns None excludePatterns = excludePatterns.
Proof.
  intros Hls Hfinal. split; [|reflexivity].
  unfold ignorePatterns.
  now rewrite readGitignore_retained, split_lines_unlines.
Qed.

(** ** The walks *)

(** C2.  An entry whose relative path satisfies [shouldIgnore] is left
    alone by both walks, with everything below it: no call is made on
    it or below it, nothing at or below it is among the entries that
    the listing and the rendering are made of. *)
Theorem ignored_subtree_untouched
        (pats : list string) (depth : nat) (dir : path) (d : node) (q : path) :
  q <> [] ->
  shouldIgnore (path_relative (dir ++ q)) pats = true ->
  (forall c o,
      In (c, o) (fst (listFiles pats dir d))
      \/ In (c, o) (fst (generateTree pats depth dir d)) ->
      forall r, call_path c <> (dir ++ q) ++ r)
  /\ (forall r n, ~ In ((dir ++ q) ++ r, n) (survivors pats dir d))
  /\ (forall l, snd (listFiles pats dir d) = Ok l ->
                l = files (survivors pats dir d))
  /\ (forall t, snd (generateTree pats depth dir d) = Ok t ->
                t = lines depth dir (survivors pats dir d)).
Proof.
  intros Hq Hign.
  destruct (exists_last Hq) as (q0 & file & ->).
  assert (Hex : excluded pats (dir ++ q0) file = true).
  { unfold excluded, path_join. rewrite <- app_assoc, Hign. apply orb_true_r. }
  destruct (skipped_untouched pats depth dir d q0 file Hex) as [Hcalls Hnone].
  repeat split.
  - exact Hcalls.
  - exact Hnone.
  - apply listFiles_ok.
  - apply generateTree_ok.
Qed.

(** C5.  An entry whose base name starts with a dot is left alone by
    both walks, with everything below it, whatever the patterns are: no
    call is made on it or below it, nothing at or below it is among the
    entries that the listing and the rendering are made of. *)
Theorem hidden_entry_untouched
        (pats : list string) (depth : nat) (dir : path) (d : node)
        (q : path) (file : string) :
  JS.startsWith file "." = true ->
  (forall c o,
      In (c, o) (fst (listFiles pats dir d))
      \/ In (c, o) (fst (generateTree pats depth dir d)) ->
      forall r, call_path c <> (dir ++ q ++ [file]) ++ r)
  /\ (forall r n, ~ In ((dir ++ q ++ [file]) ++ r, n) (survivors pats dir d))
  /\ (forall l, snd (listFiles pats dir d) = Ok l ->
                l = files (survivors pats dir d))
  /\ (forall t, snd (generateTree pats depth dir d) = Ok t ->
                t = lines depth dir (survivors pats dir d)).
Proof.
  intros Hdot.
  assert (Hex : excluded pats (dir ++ q) file = true).
  { unfold excluded, hidden. now rewrite Hdot. }
  destruct (skipped_untouched pats depth dir d q file Hex) as [Hcalls Hnone].
  repeat split.
  - exact Hcalls.
  - exact Hnone.
  - apply listFiles_ok.
  - apply generateTree_ok.
Qed.

(** C3.  The two walks take the same decisions: they make the same
    calls, they reject together with the same error, and otherwise the
    listing holds the relative paths of the files among the surviving
    entries while the tree holds one line for each surviving entry.  An
    entry survives exactly when every name on the way to it passes the
    hidden-entry filter and the ignore filter. *)
Theorem listing_tree_consistent
        (pats : list string) (depth : nat) (dir : path) (d : node) :
  fst (listFiles pats dir d) = fst (generateTree pats depth dir d)
  /\ ((exists e, snd (listFiles pats dir d) = Err e
                 /\ snd (generateTree pats depth dir d) = Err e)
      \/ (snd (listFiles pats dir d) = Ok (files (survivors pats dir d))
          /\ snd (generateTree pats depth dir d)
             = Ok (lines depth dir (survivors pats dir d))))
  /\ (forall p n,
        In (p, n) (survivors pats dir d) <->
        exists q, p = dir ++ q /\ at_path d q n /\ kept pats dir q = true).
Proof.
  split; [apply same_calls|]. split; [|apply survivors_at].
  rewrite listFiles_settles, generateTree_settles.
  destruct d as [|entries|e|e];
    try (left; eexists; split; reflexivity).
  rewrite listFiles_run_dir, generateTree_run_dir. cbn [snd].
  destruct (snd (replay _)) as [e|].
  - left. now exists e.
  - now right.
Qed.

(** C6.  On a directory whose surviving entries can all be read,
    [listFiles] returns the listing: each surviving entry in the order
    of the directory, a directory by the listing of its contents and a
    file by its own relative path.  These are exactly the relative
    paths of the files that every filter lets through, and no path
    occurs twice when the names of a directory are pairwise different
    and free of separators. *)
Theorem listFiles_listing
        (pats : list string) (dir : path) (entries : list (string * node)) :
  (forall p n, In (p, n) (survivors pats dir (Dir entries)) -> rejects n = false) ->
  snd (listFiles pats dir (Dir entries)) = Ok (listing pats dir (Dir entries))
  /\ (forall dir' file child rest,
        listing pats dir' (Dir ((file, child) :: rest))
        = (if JS.startsWith file "."
              || shouldIgnore (path_relative (path_join dir' file)) pats
           then []
           else match child with
                | File => [path_relative (path_join dir' file)]
                | Dir _ => listing pats (path_join dir' file) child
                | _ => []
                end)
          ++ listing pats dir' (Dir rest))
  /\ (forall s,
        In s (listing pats dir (Dir entries)) <->
        exists q, s = path_relative (dir ++ q)
                  /\ at_path (Dir entries) q File /\ kept pats dir q = true)
  /\ (well_named (Dir entries) = true -> NoDup (listing pats dir (Dir entries))).
Proof.
  intros Hread. repeat split.
  - rewrite listFiles_settles, listFiles_run_dir, listing_files. cbn [snd].
    now rewrite replay_readable.
  - rewrite listing_files. unfold files. intros Hin.
    apply in_map_iff in Hin as ([p n] & <- & Hin).
    apply filter_In in Hin as [Hin Hfile]. cbn [snd] in Hfile.
    destruct n; try discriminate.
    apply survivors_at in Hin as (q & -> & Hat & Hkept). now exists q.
  - intros (q & -> & Hat & Hkept). rewrite listing_files. unfold files.
    apply in_map_iff. exists (dir ++ q, File). split; [reflexivity|].
    apply filter_In. split; [|reflexivity].
    apply survivors_at. now exists q.
  - intros Hwn. rewrite listing_files. now apply files_NoDup.
Qed.

(** C7.  On a directory whose surviving entries can all be read,
    [generateTree] returns the rendering: for each surviving entry in
    order, [depth] times two spaces, a dash and a space, the base name
    and a line feed, followed at once, for a directory, by the
    rendering of its contents one level deeper, and only then by the
    lines of the entries that come after it. *)
Theorem generateTree_rendering
        (pats : list string) (depth : nat) (dir : path) (entries : list (string * node)) :
  (forall p n, In (p, n) (survivors pats dir (Dir entries)) -> rejects n = false) ->
  snd (generateTree pats depth dir (Dir entries))
  = Ok (rendering pats depth dir (Dir entries))
  /\ (forall depth' dir' file child rest,
        rendering pats depth' dir' (Dir ((file, child) :: rest))
        = ((if JS.startsWith file "."
               || shouldIgnore (path_relative (path_join dir' file)) pats
            then ""
            else (JS.repeat "  " depth' ++ "- " ++ file ++ String JS.LF "")
                 ++ rendering pats (S depth') (path_join dir' file) child)
           ++ rendering pats depth' dir' (Dir rest))%string)
  /\ (forall depth' dir', rendering pats depth' dir' (Dir []) = ""%string)
  /\ (forall depth' dir', rendering pats depth' dir' File = ""%string).
Proof.
  intros Hread. repeat split.
  - rewrite generateTree_settles, generateTree_run_dir, rendering_lines. cbn [snd].
    now rewrite replay_readable.
  - intros depth' dir' file child rest. apply rendering_cons.
Qed.

(** C9.  A call that rejects ends the walk: it is the last call made,
    and both [listFiles] and [generateTree] reject with its error, with
    no listing and no tree. *)
Theorem rejection_aborts
        (pats : list string) (depth : nat) (dir : path) (d : node)
        (c : syscall) (e : error) :
  In (c, Some e) (fst (listFiles pats dir d))
  \/ In (c, Some e) (fst (generateTree pats depth dir d)) ->
  exists t,
    listFiles pats dir d = (t ++ [(c, Some e)], Err e)
    /\ generateTree pats depth dir d = (t ++ [(c, Some e)], Err e).
Proof.
  intros Hin.
  assert (Hin' : In (c, Some e) (fst (listFiles pats dir d))).
  { destruct Hin as [H | H]; [exact H | now rewrite (same_calls pats depth)]. }
  clear Hin. revert Hin'.
  rewrite listFiles_settles, generateTree_settles.
  destruct d as [|entries|e0|e0];
    try (intros [H | []]; inversion H; subst; now exists []).
  rewrite listFiles_run_dir, generateTree_run_dir. cbn [fst].
  intros [H | H]; [discriminate|].
  apply replay_rejection_last in H as (Hr & t & Ht).
  exists ((Readdir dir, None) :: t). rewrite Hr, Ht. now split.
Qed.

(** C10.  A pattern set that holds the empty string, as the one read
    from an ignore file with a line made of a single slash does, makes
    [shouldIgnore] true on every path, so both walks of a directory
    skip every entry: the listing and the tree are empty. *)
Theorem empty_pattern_excludes_all (S : list string) :
  In ""%string S
  \/ (exists content excludePatterns,
        In "/"%string (JS.split_lines content)
        /\ S = ignorePatterns (Some content) excludePatterns) ->
  In ""%string S
  /\ (forall P, shouldIgnore P S = true)
  /\ (forall dir entries,
        listFiles S dir (Dir entries) = fulfil (Readdir dir) [])
  /\ (forall depth dir entries,
        generateTree S depth dir (Dir entries) = fulfil (Readdir dir) ""%string).
Proof.
  intros H.
  assert (Hin : In ""%string S).
  { destruct H as [H | (content & excl & Hline & ->)]; [exact H|].
    unfold ignorePatterns. apply in_or_app. left.
    rewrite readGitignore_retained. now apply slash_line_retained. }
  assert (Hall : forall P, shouldIgnore P S = true).
  { intros P. now apply shouldIgnore_empty_pattern. }
  repeat split; try assumption.
  - intros dir entries.
    rewrite listFiles_settles, listFiles_run_dir.
    now rewrite survivors_all_excluded.
  - intros depth dir entries.
    rewrite generateTree_settles, generateTree_run_dir.
    now rewrite survivors_all_excluded.
Qed.

(** ** The command line *)





(** ** The run *)

(** X5.  Without [--target] or without [--output] among the
    arguments, [main] prints the usage line on the error stream and
    exits with code 1; no call is made on the file system and the
    output file keeps what it held. *)
Theorem main_usage (w : world) (args : list string) :
  ~ In "--target"%string args \/ ~ In "--output"%string args ->
  main w args
  = ({| console := [Error usage]; calls := [];
        output := old_output w; writes := 0 |}, 1).
Proof.
  intros H. unfold main. rewrite parseArgs_scan.
  assert (Hempty : negb (JS.truthy (Cli.targetDir (Cli.scan Cli.Switch args Cli.initial)))
                   || negb (JS.truthy (Cli.outputFile (Cli.scan Cli.Switch args Cli.initial)))
                   = true).
  { destruct H as [H | H].
    - rewrite scan_keeps_targetDir by (assumption || discriminate). reflexivity.
    - rewrite scan_keeps_outputFile by (assumption || discriminate).
      apply orb_true_r. }
  now rewrite Hempty.
Qed.






(** ** More on the walks and the ignore file *)

(** X11.  With more patterns a walk that settles still settles, and
    lists no path that it did not list before. *)
Theorem more_patterns_fewer_files
        (pats pats' : list string) (dir : path) (d : node) (l : list string) :
  incl pats pats' ->
  snd (listFiles pats dir d) = Ok l ->
  exists l', snd (listFiles pats' dir d) = Ok l' /\ incl l' l.
Proof.
  intros Hincl. rewrite !listFiles_settles.
  destruct d as [|entries|e|e]; try discriminate.
  rewrite !listFiles_run_dir. cbn [snd].
  destruct (snd (replay (survivors pats dir (Dir entries)))) eqn:Hr; [discriminate|].
  intros Hl. injection Hl as <-.
  pose proof (replay_ok_readable _ Hr) as Hread.
  rewrite replay_readable
    by (intros p n Hin; apply (Hread p); now apply (survivors_incl pats pats')).
  eexists. split; [reflexivity|].
  unfold files. intros s Hs. apply in_map_iff in Hs as ([p n] & <- & Hs).
  apply filter_In in Hs as [Hs Hfile]. apply in_map_iff.
  exists (p, n). split; [reflexivity|]. apply filter_In. split; [|exact Hfile].
  exact (survivors_incl pats pats' dir (Dir entries) p n Hincl Hs).
Qed.

(** X12.  When the names of each directory are pairwise different, a
    walk makes no call twice: each surviving entry is asked for its
    kind once, each surviving directory is read once. *)
Theorem walk_calls_once
        (pats : list string) (depth : nat) (dir : path) (d : node) :
  well_named d = true ->
  NoDup (map fst (fst (listFiles pats dir d)))
  /\ NoDup (map fst (fst (generateTree pats depth dir d))).
Proof.
  intros Hwn. rewrite <- (same_calls pats depth).
  assert (H : NoDup (map fst (fst (listFiles pats dir d)))).
  { rewrite listFiles_settles.
    destruct d as [|entries|e|e]; try (now repeat constructor).
    rewrite listFiles_run_dir. cbn [fst map]. constructor.
    - intros Hin. apply in_map_iff in Hin as ([c o] & Hc & Hin).
      cbn [fst] in Hc. subst c.
      apply replay_call_paths in Hin as [n Hn].
      apply survivors_longer in Hn. cbn [call_path] in Hn. lia.
    - apply replay_NoDup. now apply survivors_NoDup. }
  now split.
Qed.

(** X13.  The ignore file gives the empty pattern, the one that
    excludes everything, exactly when one of its lines is a single
    slash. *)
Theorem empty_pattern_only_from_slash (content : string) :
  In ""%string (readGitignore (Some content))
  <-> In "/"%string (JS.split_lines content).
Proof.
  rewrite readGitignore_retained. split.
  - apply retained_empty.
  - apply slash_line_retained.
Qed.

(** X14.  A line of the ignore file that is not empty and starts with
    neither [#] nor [/] is a pattern as it stands: nothing is trimmed,
    and a leading [!] or a [#] after the first column is part of the
    pattern. *)
Theorem gitignore_line_verbatim (content line : string) :
  In line (JS.split_lines content) ->
  line <> ""%string ->
  JS.startsWith line "#" = false -> JS.startsWith line "/" = false ->
  In line (readGitignore (Some content)).
Proof.
  intros Hin Hne Hhash Hslash. rewrite readGitignore_retained.
  now apply retained_verbatim.
Qed.

End Walker.

(** ** The theorems at work

    The walks run with the engine [MiniRegExp] on the trees of the
    examples. *)

#[warnings="-notation-for-abbreviation"]
Notation run_shouldIgnore :=
  (shouldIgnore MiniRegExp.regex MiniRegExp.compile MiniRegExp.matcher).
#[warnings="-notation-for-abbreviation"]
Notation run_listFiles :=
  (listFiles MiniRegExp.regex MiniRegExp.compile MiniRegExp.matcher).
#[warnings="-notation-for-abbreviation"]
Notation run_generateTree :=
  (generateTree MiniRegExp.regex MiniRegExp.compile MiniRegExp.matcher).
#[warnings="-notation-for-abbreviation"]
Notation run_survivors :=
  (survivors MiniRegExp.regex MiniRegExp.compile MiniRegExp.matcher).
#[warnings="-notation-for-abbreviation"]
Notation run_listing :=
  (listing MiniRegExp.regex MiniRegExp.compile MiniRegExp.matcher).
#[warnings="-notation-for-abbreviation"]
Notation run_rendering :=
  (rendering MiniRegExp.regex MiniRegExp.compile MiniRegExp.matcher).

(** The scenario of the specification: only [src/a.txt] is listed, and
    the tree shows [src] with [a.txt] one level below it. *)
Example scenario_listFiles :
  run_listFiles ["node_modules"] [] scenario
  = ([(Readdir [], None); (Stat ["src"], None); (Readdir ["src"], None);
      (Stat ["src"; "a.txt"], None)],
     Ok ["src/a.txt"]).
Proof. reflexivity. Qed.

Example scenario_generateTree :
  snd (run_generateTree ["node_modules"] 0 [] scenario)
  = Ok ("- src" ++ String JS.LF "  - a.txt" ++ String JS.LF "")%string.
Proof. reflexivity. Qed.

(** A pattern is tried as a prefix and as a regular expression; one
    that does not compile is not an error. *)
Example shouldIgnore_samples :
  run_shouldIgnore "build/output.txt" ["build"] = true
  /\ run_shouldIgnore "src/a.txt" ["txt$"] = true
  /\ run_shouldIgnore "src/a.txt.bak" ["txt$"] = false
  /\ run_shouldIgnore "src/a.txt" ["*"] = false
  /\ run_shouldIgnore "*.log" ["*"] = true.
Proof. repeat split. Qed.

Lemma shouldIgnore_permutation_witness :
  Permutation ["node_modules"; "txt$"] ["txt$"; "node_modules"]
  /\ run_shouldIgnore "src/a.txt" ["node_modules"; "txt$"]
     = run_shouldIgnore "src/a.txt" ["txt$"; "node_modules"].
Proof.
  split; [apply perm_swap|].
  apply (shouldIgnore_permutation MiniRegExp.regex MiniRegExp.compile
           MiniRegExp.matcher).
  apply perm_swap.
Defined.

Lemma ignorePatterns_lines_witness :
  Forall well_terminated scenario_lines
  /\ no_LF "" = true
  /\ ignorePatterns (Some (unlines scenario_lines "")) ["tmp"]
     = retained (map fst scenario_lines ++ [""%string]) ++ ["tmp"]
  /\ ignorePatterns None ["tmp"] = ["tmp"].
Proof.
  assert (H : Forall well_terminated scenario_lines).
  { unfold scenario_lines.
    repeat (constructor; [split; [reflexivity | intros _; reflexivity || discriminate]|]).
    constructor. }
  split; [exact H|]. split; [reflexivity|].
  apply (ignorePatterns_lines scenario_lines "" ["tmp"] H). reflexivity.
Defined.

Lemma scenario_readable :
  forall p n, In (p, n) (run_survivors ["node_modules"] [] scenario) ->
              rejects n = false.
Proof.
  intros p n H. vm_compute in H.
  destruct H as [H | [H | []]]; inversion H; reflexivity.
Defined.

Lemma ignored_subtree_untouched_witness :
  ["node_modules"%string] <> []
  /\ run_shouldIgnore (path_relative ([] ++ ["node_modules"])) ["node_modules"] = true
  /\ (forall c o,
        In (c, o) (fst (run_listFiles ["node_modules"] [] scenario))
        \/ In (c, o) (fst (run_generateTree ["node_modules"] 0 [] scenario)) ->
        forall r, call_path c <> ([] ++ ["node_modules"]) ++ r)
  /\ (forall r n,
        ~ In (([] ++ ["node_modules"]) ++ r, n)
             (run_survivors ["node_modules"] [] scenario))
  /\ (forall l, snd (run_listFiles ["node_modules"] [] scenario) = Ok l ->
                l = files (run_survivors ["node_modules"] [] scenario))
  /\ (forall t, snd (run_generateTree ["node_modules"] 0 [] scenario) = Ok t ->
                t = lines 0 [] (run_survivors ["node_modules"] [] scenario)).
Proof.
  split; [discriminate|]. split; [reflexivity|].
  apply (ignored_subtree_untouched MiniRegExp.regex MiniRegExp.compile
           MiniRegExp.matcher ["node_modules"] 0 [] scenario ["node_modules"]).
  - discriminate.
  - reflexivity.
Defined.

Lemma hidden_entry_untouched_witness :
  JS.startsWith ".hidden" "." = true
  /\ (forall c o,
        In (c, o) (fst (run_listFiles ["node_modules"] [] scenario))
        \/ In (c, o) (fst (run_generateTree ["node_modules"] 0 [] scenario)) ->
        forall r, call_path c <> ([] ++ ["src"] ++ [".hidden"]) ++ r)
  /\ (forall r n,
        ~ In (([] ++ ["src"] ++ [".hidden"]) ++ r, n)
             (run_survivors ["node_modules"] [] scenario))
  /\ (forall l, snd (run_listFiles ["node_modules"] [] scenario) = Ok l ->
                l = files (run_survivors ["node_modules"] [] scenario))
  /\ (forall t, snd (run_generateTree ["node_modules"] 0 [] scenario) = Ok t ->
                t = lines 0 [] (run_survivors ["node_modules"] [] scenario)).
Proof.
  split; [reflexivity|].
  apply (hidden_entry_untouched MiniRegExp.regex MiniRegExp.compile
           MiniRegExp.matcher ["node_modules"] 0 [] scenario ["src"] ".hidden").
  reflexivity.
Defined.

Lemma listFiles_listing_witness :
  (forall p n, In (p, n) (run_survivors ["node_modules"] [] scenario) ->
               rejects n = false)
  /\ snd (run_listFiles ["node_modules"] [] scenario) = Ok ["src/a.txt"]
  /\ NoDup (run_listing ["node_modules"] [] scenario).
Proof.
  split; [exact scenario_readable|].
  destruct (listFiles_listing MiniRegExp.regex MiniRegExp.compile
              MiniRegExp.matcher ["node_modules"] []
              [("src", Dir [("a.txt", File); (".hidden", File)]);
               ("node_modules", Dir [("x.js", File)]);
               (".git", Dir [("HEAD", File)])] scenario_readable)
    as (Hrun & _ & _ & Hnodup).
  split; [exact Hrun | apply Hnodup; reflexivity].
Defined.

Lemma generateTree_rendering_witness :
  (forall p n, In (p, n) (run_survivors ["node_modules"] [] scenario) ->
               rejects n = false)
  /\ snd (run_generateTree ["node_modules"] 0 [] scenario)
     = Ok ("- src" ++ String JS.LF "  - a.txt" ++ String JS.LF "")%string.
Proof.
  split; [exact scenario_readable|].
  exact (proj1 (generateTree_rendering MiniRegExp.regex MiniRegExp.compile
                  MiniRegExp.matcher ["node_modules"] 0 []
                  [("src", Dir [("a.txt", File); (".hidden", File)]);
                   ("node_modules", Dir [("x.js", File)]);
                   (".git", Dir [("HEAD", File)])] scenario_readable)).
Defined.

Lemma rejection_aborts_witness :
  (In (Stat ["gone"], Some "ENOENT"%string)
      (fst (run_listFiles ["node_modules"] [] scenario_gone))
   \/ In (Stat ["gone"], Some "ENOENT"%string)
         (fst (run_generateTree ["node_modules"] 0 [] scenario_gone)))
  /\ exists t,
       run_listFiles ["node_modules"] [] scenario_gone
       = (t ++ [(Stat ["gone"], Some "ENOENT"%string)], Err "ENOENT"%string)
       /\ run_generateTree ["node_modules"] 0 [] scenario_gone
          = (t ++ [(Stat ["gone"], Some "ENOENT"%string)], Err "ENOENT"%string).
Proof.
  assert (H : In (Stat ["gone"], Some "ENOENT"%string)
                 (fst (run_listFiles ["node_modules"] [] scenario_gone))).
  { vm_compute. do 4 right. left. reflexivity. }
  split; [left; exact H|].
  apply (rejection_aborts MiniRegExp.regex MiniRegExp.compile MiniRegExp.matcher
           ["node_modules"] 0 [] scenario_gone (Stat ["gone"]) "ENOENT"%string).
  left. exact H.
Defined.

Lemma empty_pattern_excludes_all_witness :
  (In ""%string (ignorePatterns (Some (unlines scenario_lines "")) ["tmp"])
   \/ exists content excludePatterns,
        In "/"%string (JS.split_lines content)
        /\ ignorePatterns (Some (unlines scenario_lines "")) ["tmp"]
           = ignorePatterns (Some content) excludePatterns)
  /\ In ""%string (ignorePatterns (Some (unlines scenario_lines "")) ["tmp"])
  /\ (forall P,
        run_shouldIgnore P (ignorePatterns (Some (unlines scenario_lines "")) ["tmp"])
        = true)
  /\ (forall dir entries,
        run_listFiles (ignorePatterns (Some (unlines scenario_lines "")) ["tmp"])
                      dir (Dir entries)
        = fulfil (Readdir dir) [])
  /\ (forall depth dir entries,
        run_generateTree (ignorePatterns (Some (unlines scenario_lines "")) ["tmp"])
                         depth dir (Dir entries)
        = fulfil (Readdir dir) ""%string).
Proof.
  assert (H : exists content excludePatterns,
             In "/"%string (JS.split_lines content)
             /\ ignorePatterns (Some (unlines scenario_lines "")) ["tmp"]
                = ignorePatterns (Some content) excludePatterns).
  { exists (unlines scenario_lines ""), ["tmp"]. split; [|reflexivity].
    vm_compute. do 4 right. left. reflexivity. }
  split; [right; exact H|].
  apply (empty_pattern_excludes_all MiniRegExp.regex MiniRegExp.compile
           MiniRegExp.matcher).
  right. exact H.
Defined.

(** ** The run at work *)

#[warnings="-notation-for-abbreviation"]
Notation run_main :=
  (main MiniRegExp.regex MiniRegExp.compile MiniRegExp.matcher
        MiniPath.extname MiniPath.join).
#[warnings="-notation-for-abbreviation"]
Notation run_isTargetFile := (isTargetFile MiniPath.extname).
#[warnings="-notation-for-abbreviation"]
Notation run_is_target := (is_target MiniPath.extname MiniPath.join).

(** The extension of a path as the host gives it. *)
Example extname_samples :
  map MiniPath.extname
      ["index.html"; "index.coffee.md"; "index."; "index"; ".index";
       ".index.md"; "a/b.c/d"; ".."; "x.y/"]%string
  = [".html"; ".md"; "."; ""; ""; ".md"; ""; ""; ".y"]%string.
Proof. reflexivity. Qed.

(** The scenario, dumped. *)
Example scenario_main :
  run_main scenario_world scenario_args
  = ({| console := [Log "Processed: src/a.txt"];
        calls := [(Readdir [], None); (Stat ["src"], None);
                  (Readdir ["src"], None); (Stat ["src"; "a.txt"], None);
                  (Readdir [], None); (Stat ["src"], None);
                  (Readdir ["src"], None); (Stat ["src"; "a.txt"], None)];
        output :=
          ("## Find Output" ++ nl ++ "src/a.txt" ++ nl ++ nl
           ++ "## Directory Tree" ++ nl ++ "- src" ++ nl ++ "  - a.txt" ++ nl ++ nl
           ++ "## Source Code" ++ nl
           ++ "```file:src/a.txt" ++ nl ++ "hello" ++ nl ++ "```" ++ nl ++ nl)%string;
        writes := 8 |}, 0).
Proof. reflexivity. Qed.




Lemma main_usage_witness :
  (~ In "--target"%string ["--output"; "out.md"]%string
   \/ ~ In "--output"%string ["--output"; "out.md"]%string)
  /\ run_main scenario_world ["--output"; "out.md"]%string
     = ({| console := [Error usage]; calls := [];
           output := "stale"; writes := 0 |}, 1).
Proof.
  assert (H : ~ In "--target"%string ["--output"; "out.md"]%string).
  { intros [H | [H | []]]; discriminate. }
  split; [left; exact H|].
  exact (main_usage MiniRegExp.regex MiniRegExp.compile MiniRegExp.matcher
           MiniPath.extname MiniPath.join scenario_world
           ["--output"; "out.md"]%string (or_introl H)).
Defined.

Lemma scenario_writes : forall n, write_error scenario_world n = None.
Proof. intros n. reflexivity. Defined.

Lemma scenario_options_ok :
  Cli.targetDir scenario_options <> ""%string
  /\ Cli.outputFile scenario_options <> ""%string.
Proof. split; discriminate. Defined.






Lemma more_patterns_fewer_files_witness :
  incl ["node_modules"%string] ["node_modules"; "src"]%string
  /\ snd (run_listFiles ["node_modules"] [] scenario) = Ok ["src/a.txt"%string]
  /\ exists l', snd (run_listFiles ["node_modules"; "src"] [] scenario) = Ok l'
                /\ incl l' ["src/a.txt"%string].
Proof.
  assert (H : incl ["node_modules"%string] ["node_modules"; "src"]%string).
  { intros s [<- | []]. now left. }
  split; [exact H|]. split; [reflexivity|].
  exact (more_patterns_fewer_files MiniRegExp.regex MiniRegExp.compile
           MiniRegExp.matcher ["node_modules"] ["node_modules"; "src"] []
           scenario ["src/a.txt"%string] H eq_refl).
Defined.

Lemma walk_calls_once_witness :
  well_named scenario = true
  /\ NoDup (map fst (fst (run_listFiles ["node_modules"] [] scenario)))
  /\ NoDup (map fst (fst (run_generateTree ["node_modules"] 0 [] scenario))).
Proof.
  split; [reflexivity|].
  exact (walk_calls_once MiniRegExp.regex MiniRegExp.compile MiniRegExp.matcher
           ["node_modules"] 0 [] scenario eq_refl).
Defined.

Lemma gitignore_line_verbatim_witness :
  In "!keep  "%string (JS.split_lines ("# c" ++ nl ++ "!keep  " ++ nl ++ " #x"))
  /\ "!keep  "%string <> ""%string
  /\ JS.startsWith "!keep  " "#" = false
  /\ JS.startsWith "!keep  " "/" = false
  /\ In "!keep  "%string
        (readGitignore (Some ("# c" ++ nl ++ "!keep  " ++ nl ++ " #x")%string)).
Proof.
  assert (H : In "!keep  "%string
                 (JS.split_lines ("# c" ++ nl ++ "!keep  " ++ nl ++ " #x"))).
  { vm_compute. right. left. reflexivity. }
  assert (Hne : "!keep  "%string <> ""%string) by discriminate.
  split; [exact H|]. split; [exact Hne|]. split; [reflexivity|].
  split; [reflexivity|].
  exact (gitignore_line_verbatim ("# c" ++ nl ++ "!keep  " ++ nl ++ " #x")%string
           "!keep  " H Hne eq_refl eq_refl).
Defined.
